(** * A shallow embedding of Exeedo/hashing: siphash.py and hashtable.py

    [siphash.py] is a SipHash-2-4 variant over unbounded Python integers;
    [hashtable.py] is an open-addressing hash table with tombstones
    ("dummy" entries), three probe strategies and doubling on overflow.

    Python integers are [Z]; bit operations are [Z.land], [Z.lor],
    [Z.lxor], [Z.shiftl], [Z.shiftr], which agree with Python's on
    negative numbers too.  Python strings are [String.string] (code
    points below 256).  A computation either returns ([Done]), raises a
    Python exception ([Raised]) or runs out of its fuel ([Stuck]);
    [Stuck] at every fuel is how a non-terminating [while True] loop
    shows up. *)

From Stdlib Require Import ZArith String Ascii Lia.
From stdpp Require Import base list.

Open Scope Z_scope.

(** ** Outcomes of a Python computation *)

Inductive outcome (A : Type) : Type :=
| Done (a : A)
| Raised
| Stuck.
Arguments Done {A} a.
Arguments Raised {A}.
Arguments Stuck {A}.

#[global] Instance outcome_ret : MRet outcome := fun A a => Done a.
#[global] Instance outcome_bind : MBind outcome :=
  fun A B (k : A -> outcome B) (m : outcome A) =>
    match m with
    | Done a => k a
    | Raised => Raised
    | Stuck => Stuck
    end.

(** ** Python objects used as keys and values

    [PObj n] is any other object, hashed (and compared) through its
    identity [id(obj) = n]. *)

Inductive pyobj : Type :=
| PNone
| PInt (n : Z)
| PStr (s : string)
| PObj (id : Z).

(** [==] on these objects (default object equality is identity). *)
Definition py_eq (a b : pyobj) : bool :=
  match a, b with
  | PNone, PNone => true
  | PInt x, PInt y => Z.eqb x y
  | PStr x, PStr y => String.eqb x y
  | PObj x, PObj y => Z.eqb x y
  | _, _ => false
  end.

(** ** siphash.py *)

Module SipHash.

Definition mask64 : Z := Z.ones 64.

(** [split_lower_upper_words] *)
Definition split_lower_upper_words (big_int : Z) : Z * Z :=
  (Z.land big_int mask64, Z.shiftr big_int 64).

(** [circular_shift] *)
Definition circular_shift (var shift : Z) : Z :=
  let '(lower, upper) := split_lower_upper_words (Z.shiftl var shift) in
  Z.lor lower upper.

(** [str2int]: character [i] goes to bits [8i, 8i+8). *)
Fixpoint str2int_from (i : Z) (s : string) : Z :=
  match s with
  | EmptyString => 0
  | String c rest =>
      Z.lor (Z.shiftl (Z.of_nat (nat_of_ascii c)) (Z.shiftl i 3))
            (str2int_from (i + 1) rest)
  end.
Definition str2int (s : string) : Z := str2int_from 0 s.

(** [negate] *)
Definition negate (val : Z) : Z := - (Z.lxor val mask64) - 1.

(** [len(bin(msg)) - 2]: the binary digits, plus one for the sign of a
    negative number ([bin(-5) = '-0b101']). *)
Definition bin_len_minus2 (msg : Z) : Z :=
  if msg =? 0 then 1
  else if msg <? 0 then Z.log2 (- msg) + 2
  else Z.log2 msg + 1.

(** [__add_size_byte] *)
Definition add_size_byte (msg : Z) : Z :=
  let size_bits := bin_len_minus2 msg in
  let size_bytes := Z.shiftr (size_bits + 7) 3 in
  let size_words := Z.shiftr (size_bytes + 8) 3 in
  let size_bytes := Z.land size_bytes 255 in
  let size_words := Z.shiftl size_words 6 in
  Z.lor msg (Z.shiftl size_bytes (size_words - 8)).

(** The state variables [v0 .. v3]. *)
Record state := mkState { v0 : Z; v1 : Z; v2 : Z; v3 : Z }.

(** [__half_sipround(s, t)] *)
Definition half_sipround (s t : Z) (v : state) : state :=
  let a0 := fst (split_lower_upper_words (v0 v + v1 v)) in
  let a2 := fst (split_lower_upper_words (v2 v + v3 v)) in
  let a1 := Z.lxor (circular_shift (v1 v) s) a0 in
  let a3 := Z.lxor (circular_shift (v3 v) t) a2 in
  let a0 := circular_shift a0 32 in
  (* var[0], var[2] = var[2], var[0] *)
  mkState a2 a1 a0 a3.

(** [__double_sipround] *)
Definition double_sipround (v : state) : state :=
  half_sipround 17 21 (half_sipround 13 16
    (half_sipround 17 21 (half_sipround 13 16 v))).

(** [__initialization] *)
Definition initialization (secret_key : Z) : state :=
  let '(k0, k1) := split_lower_upper_words secret_key in
  mkState (Z.lxor k0 0x736F6D6570736575)
          (Z.lxor k1 0x646F72616E646F6D)
          (Z.lxor k0 0x6C7967656E657261)
          (Z.lxor k1 0x7465646279746573).

(** [__compress_word] *)
Definition compress_word (word : Z) (v : state) : state :=
  let v := double_sipround (mkState (v0 v) (v1 v) (v2 v) (Z.lxor (v3 v) word)) in
  mkState (Z.lxor (v0 v) word) (v1 v) (v2 v) (v3 v).

(** The [while upper:] loop of [__compression], with fuel. *)
Fixpoint compression_loop (fuel : nat) (upper : Z) (v : state) : outcome state :=
  match fuel with
  | O => Stuck
  | S f =>
      if upper =? 0 then Done v
      else
        let '(lower, upper) := split_lower_upper_words upper in
        compression_loop f upper (compress_word lower v)
  end.

(** Fuel that is enough for a non-negative message (one iteration per
    further 64-bit word); a negative message never leaves the loop. *)
Definition compression_fuel (updated_msg : Z) : nat :=
  S (S (Z.to_nat (Z.log2 (Z.abs updated_msg) / 64))).

(** [__compression] *)
Definition compression_with (fuel : nat) (msg : Z) (v : state) : outcome state :=
  let updated_msg := add_size_byte msg in
  let '(lower, upper) := split_lower_upper_words updated_msg in
  compression_loop fuel upper (compress_word lower v).

Definition compression (msg : Z) (v : state) : outcome state :=
  compression_with (compression_fuel (add_size_byte msg)) msg v.

(** [__finalization] *)
Definition finalization (v : state) : state :=
  double_sipround (double_sipround (mkState (v0 v) (v1 v) (Z.lxor (v2 v) 255) (v3 v))).

(** [__siphash_main] after [__reset]. *)
Definition siphash_main_with (fuel : nat) (secret_key : Z) (allow_negative : bool)
    (int_msg : Z) : outcome Z :=
  v ← compression_with fuel int_msg (initialization secret_key);
  let v := finalization v in
  let h := Z.lxor (Z.lxor (Z.lxor (Z.lxor 0 (v0 v)) (v1 v)) (v2 v)) (v3 v) in
  Done (if Z.testbit h 63 && negb allow_negative then negate h else h).

(** [id(None)]: an address of the running interpreter; its value never
    matters below. *)
Definition id_none : Z := 0.

(** The message [get_hash] feeds to the algorithm. *)
Definition message_of (input_msg : pyobj) : Z :=
  match input_msg with
  | PStr s => str2int s
  | PInt n => n
  | PObj i => i
  | PNone => id_none
  end.

(** [get_hash] with an explicit bound on the compression loop. *)
Definition get_hash_with (fuel : nat) (secret_key : Z) (allow_negative : bool)
    (input_msg : pyobj) : outcome Z :=
  siphash_main_with fuel secret_key allow_negative (message_of input_msg).

(** [get_hash] *)
Definition get_hash (secret_key : Z) (allow_negative : bool) (input_msg : pyobj)
    : outcome Z :=
  let m := message_of input_msg in
  siphash_main_with (compression_fuel (add_size_byte m)) secret_key allow_negative m.

End SipHash.

(** ** hashtable.py *)

Module HashTable.

(** A slot of the internal list ([HashTableEntry]): empty (hash [None]),
    filled, or dummy (a tombstone; [set_dummy] is only ever called on a
    filled entry, and a dummy's key, value and hash are never read
    again).  [[HashTableEntry()] * size] shares one empty entry between
    all slots, but an empty entry is never mutated, so slots are values. *)
Inductive entry : Type :=
| Empty
| Filled (key value : pyobj) (hash_value : Z)
| Dummy.

Definition is_dummy (e : entry) : bool :=
  match e with Dummy => true | _ => false end.
Definition is_filled (e : entry) : bool :=
  match e with Filled _ _ _ => true | _ => false end.

(** The method bound to [__get_new_index]. *)
Inductive probe : Type := Simple | Modified | Pythonic.

(** [__simple_linear_probing], [__modified_linear_probing],
    [__pythonic_linear_probing] *)
Definition get_new_index (p : probe) (size prev_index hash_value : Z) : Z * Z :=
  match p with
  | Simple => (Z.land (prev_index + 1) (size - 1), hash_value)
  | Modified => (Z.land (5 * prev_index + 1) (size - 1), hash_value)
  | Pythonic => (Z.land (5 * prev_index + 1 + hash_value) (size - 1),
                 Z.shiftr hash_value 5)
  end.

(** The instance attributes of a [HashTable] ([__verbose] and
    [__hash_key] have no effect on the results and are left out). *)
Record table := mkTable {
  size : Z;
  used : Z;
  update_used : bool;
  internal_list : list entry;
  collision_counter : Z;
  strategy : probe
}.

(** The class attribute [load_factor = 1]. *)
Definition load_factor : Z := 1.

(** [HashTable.__init__]: the [assert] on the technique name. *)
Definition probe_of_string (collision_resolution : string) : option probe :=
  if String.eqb collision_resolution "simple" then Some Simple
  else if String.eqb collision_resolution "modified" then Some Modified
  else if String.eqb collision_resolution "pythonic" then Some Pythonic
  else None.

Definition init (collision_resolution : string) : outcome table :=
  match probe_of_string collision_resolution with
  | Some p => Done (mkTable 8 0 true (repeat Empty 8) 0 p)
  | None => Raised (* AssertionError *)
  end.

Section Ops.

(** The hash [HashTableEntry.__get_hash] computes for a key that is not
    [None]: SipHash under the class-wide secret key, then the optional
    [__compress_hash] (see [entry_hash] below for the instance). *)
Variable hash_of : pyobj -> outcome Z.

(** [HashTableEntry(key=key).hash_value] *)
Definition entry_hash_value (key : pyobj) : outcome (option Z) :=
  match key with
  | PNone => Done None
  | k => h ← hash_of k; Done (Some h)
  end.

(** [HashTableEntry(key=key, value=value)] *)
Definition new_entry (key value : pyobj) : outcome entry :=
  hv ← entry_hash_value key;
  Done (match hv with None => Empty | Some h => Filled key value h end).

(** [entry == self.__internal_list[index]]: hashes first, then keys. *)
Definition entry_matches (key : pyobj) (h0 : Z) (e : entry) : bool :=
  match e with
  | Filled k _ h => if negb (Z.eqb h0 h) then false else py_eq key k
  | _ => false
  end.

(** Whether the [while True] loop of [__lookup_key] returns at a slot. *)
Definition stops (skip_dummy : bool) (key : pyobj) (h0 : Z) (e : entry) : bool :=
  match e with
  | Dummy => negb skip_dummy
  | Filled _ _ _ => entry_matches key h0 e
  | Empty => true
  end.

(** The loop of [__lookup_key]: the index it returns and the number of
    [__print_collision] calls (each adds one to [collision_counter]). *)
Fixpoint lookup_loop (fuel : nat) (p : probe) (size : Z) (l : list entry)
    (skip_dummy : bool) (key : pyobj) (h0 : Z) (index hash_value : Z)
    : outcome (Z * Z) :=
  match fuel with
  | O => Stuck
  | S f =>
      match l !! Z.to_nat index with
      | None => Raised (* IndexError; never, the index is masked *)
      | Some e =>
          if stops skip_dummy key h0 e then Done (index, 0)
          else
            let '(index', hash') := get_new_index p size index hash_value in
            r ← lookup_loop f p size l skip_dummy key h0 index' hash';
            Done (fst r, snd r + 1)
      end
  end.

(** [__lookup_key]: a [None] key has hash [None], and [None & mask]
    raises [TypeError]. *)
Definition lookup_key (fuel : nat) (t : table) (key : pyobj) (skip_dummy : bool)
    : outcome (Z * Z) :=
  hv ← entry_hash_value key;
  match hv with
  | None => Raised
  | Some h =>
      lookup_loop fuel (strategy t) (size t) (internal_list t) skip_dummy key h
        (Z.land h (size t - 1)) h
  end.

Definition add_collisions (c : Z) (t : table) : table :=
  mkTable (size t) (used t) (update_used t) (internal_list t)
    (collision_counter t + c) (strategy t).

Definition set_slot (i : Z) (e : entry) (t : table) : table :=
  mkTable (size t) (used t) (update_used t) (<[Z.to_nat i := e]> (internal_list t))
    (collision_counter t) (strategy t).

(** [__get_items], zipped as [items()] does. *)
Fixpoint get_items (l : list entry) : list (pyobj * pyobj) :=
  match l with
  | [] => []
  | Filled k v _ :: rest => (k, v) :: get_items rest
  | _ :: rest => get_items rest
  end.

Definition items (t : table) : list (pyobj * pyobj) := get_items (internal_list t).

(** [get]: returns the value and the table (whose counter moved). *)
Definition get (fuel : nat) (t : table) (key : pyobj) : outcome (pyobj * table) :=
  '(index, c) ← lookup_key fuel t key true;
  let t := add_collisions c t in
  match internal_list t !! Z.to_nat index with
  | Some (Filled _ v _) => Done (v, t)
  | Some _ => Done (PNone, t)
  | None => Raised
  end.

(** [remove] *)
Definition remove (fuel : nat) (t : table) (key : pyobj) : outcome table :=
  '(index, c) ← lookup_key fuel t key true;
  let t := add_collisions c t in
  match internal_list t !! Z.to_nat index with
  | Some (Filled _ _ _) => Done (set_slot index Dummy t)
  | Some _ => Done t
  | None => Raised
  end.

(** [__increment_size], given the [update] method it replays with: the
    flag is cleared, the size doubled, the items read from the old list,
    the list replaced by empty slots and every item re-inserted. *)
Definition increment_size (upd : table -> pyobj -> pyobj -> outcome table) (t : table)
    : outcome table :=
  let t1 := mkTable (Z.shiftl (size t) 1) (used t) false (internal_list t)
              (collision_counter t) (strategy t) in
  let its := items t1 in
  let t2 := mkTable (size t1) (used t1) (update_used t1)
              (repeat Empty (Z.to_nat (size t1))) (collision_counter t1) (strategy t1) in
  t3 ← foldl (fun acc kv => s ← acc; upd s (fst kv) (snd kv)) (Done t2) its;
  Done (mkTable (size t3) (used t3) true (internal_list t3)
          (collision_counter t3) (strategy t3)).

(** [if (self.__used + 1) / self.__size > self.load_factor: ...].  The
    Python division is a float division; for sizes below 2^53 it
    compares with [load_factor = 1] exactly as the integers do. *)
Definition resize_needed (t : table) : bool := load_factor * size t <? used t + 1.

Definition maybe_resize (upd : table -> pyobj -> pyobj -> outcome table) (t : table)
    : outcome table :=
  if resize_needed t then increment_size upd t else Done t.

(** The rest of [update] after the size check. *)
Definition place (fuel : nat) (t : table) (key value : pyobj) : outcome table :=
  '(index, c) ← lookup_key fuel t key false;
  let t := add_collisions c t in
  match internal_list t !! Z.to_nat index with
  | None => Raised
  | Some e =>
      let used' := if negb (is_dummy e) && update_used t then used t + 1 else used t in
      ne ← new_entry key value;
      Done (mkTable (size t) used' (update_used t)
              (<[Z.to_nat index := ne]> (internal_list t))
              (collision_counter t) (strategy t))
  end.

(** [update] *)
Fixpoint update (fuel : nat) (t : table) (key value : pyobj) : outcome table :=
  match fuel with
  | O => Stuck
  | S f =>
      t1 ← maybe_resize (update f) t;
      place f t1 key value
  end.

(** A public call on a table. *)
Inductive op : Type :=
| OpGet (key : pyobj)
| OpUpdate (key value : pyobj)
| OpRemove (key : pyobj).

Definition run_op (fuel : nat) (t : table) (o : op) : outcome table :=
  match o with
  | OpGet k => r ← get fuel t k; Done (snd r)
  | OpUpdate k v => update fuel t k v
  | OpRemove k => remove fuel t k
  end.

Fixpoint run_ops (fuel : nat) (t : table) (os : list op) : outcome table :=
  match os with
  | [] => Done t
  | o :: rest => t' ← run_op fuel t o; run_ops fuel t' rest
  end.

(** The tables a sequence of public calls that return leads to. *)
Inductive reaches : table -> table -> Prop :=
| reaches_refl t : reaches t t
| reaches_step fuel t o t' t'' :
    run_op fuel t o = Done t' -> reaches t' t'' -> reaches t t''.

(** The tables some sequence of calls on a new [HashTable] leads to. *)
Definition reachable (t : table) : Prop :=
  exists collision_resolution t0,
    init collision_resolution = Done t0 /\ reaches t0 t.

End Ops.

(** The hash the table uses: [HashTableEntry.__siphash] is
    [SipHash(allow_negative=True, secret_key=None)], keyed by the
    interpreter's own secret (the table's [hash_key] is never used), and
    [hash_compress_bits = 0] leaves it uncompressed. *)
Definition entry_hash (secret_key : Z) (key : pyobj) : outcome Z :=
  SipHash.get_hash secret_key true key.

(** The [while hash_value:] loop of [HashTableEntry.__compress_hash],
    with fuel: the low [bits] bits are folded into [compressed_hash] by
    xor, then [hash_value] is shifted right by [bits]. *)
Fixpoint compress_loop (fuel : nat) (bits lower hash_value compressed_hash : Z) : outcome Z :=
  match fuel with
  | O => Stuck
  | S f =>
      if hash_value =? 0 then Done compressed_hash
      else compress_loop f bits lower (Z.shiftr hash_value bits)
             (Z.lxor compressed_hash (Z.land hash_value lower))
  end.

(** [HashTableEntry.__compress_hash] with an explicit bound on the loop;
    [1 << bits] raises [ValueError] for a negative count. *)
Definition compress_hash_with (fuel : nat) (bits hash_value : Z) : outcome Z :=
  if bits <? 0 then Raised
  else
    let lower := Z.shiftl 1 bits - 1 in
    compress_loop fuel bits lower hash_value 0.

(** Enough turns of the loop for a non-negative value and [bits > 0]. *)
Definition compress_fuel (bits hash_value : Z) : nat :=
  S (S (Z.to_nat (Z.log2 (Z.abs hash_value) / bits))).

Definition compress_hash (bits hash_value : Z) : outcome Z :=
  compress_hash_with (compress_fuel bits hash_value) bits hash_value.

(** [HashTableEntry.__get_hash] for a class attribute
    [hash_compress_bits]: the hash is compressed when it is non-zero. *)
Definition entry_get_hash (hash_compress_bits secret_key : Z) (key : pyobj) : outcome Z :=
  hash_value ← SipHash.get_hash secret_key true key;
  if negb (hash_compress_bits =? 0) then compress_hash hash_compress_bits hash_value
  else Done hash_value.

End HashTable.

(** ** Spec-side readings used to compare with the code *)

(** C8 as the spec sentence writes the tag's shift: [8*W - 8]. *)
Definition claimed_size_tag (m : Z) : Z :=
  let bits := if m =? 0 then 1 else Z.log2 m + 1 in
  let L' := (bits + 7) / 8 in
  let W := (L' + 8) / 8 in
  Z.lor m (Z.shiftl (L' mod 256) (8 * W - 8)).

(** ** Concrete runs

    The interpreter's secret key is not known in advance; the runs below
    take it to be [0].  Under that key the integers [1] and [3] both start
    probing at slot [0] of an 8-slot table. *)

Module Scenario.
Import HashTable.

Definition hf0 : pyobj -> outcome Z := entry_hash 0.

(** [HashTable()] with a given probe method. *)
Definition fresh (p : probe) : table := mkTable 8 0 true (repeat Empty 8) 0 p.

(** [update(1, 1); update(3, 1); remove(1); update(3, 2)]: the last
    update takes the dummy slot [0] while [3 -> 1] still fills slot 1. *)
Definition dup_ops : list op :=
  [OpUpdate (PInt 1) (PInt 1); OpUpdate (PInt 3) (PInt 1);
   OpRemove (PInt 1); OpUpdate (PInt 3) (PInt 2)].

(** Six more keys bring [used] to 8. *)
Definition fill_ops : list op :=
  map (fun n => OpUpdate (PInt n) (PInt 0)) [10; 11; 12; 13; 14; 15].

(** Whether a call names [key]: only [update] and [remove] of [key]
    end the round-trip promise. *)
Definition touches (key : pyobj) (o : op) : bool :=
  match o with
  | OpGet _ => false
  | OpUpdate k _ | OpRemove k => py_eq k key
  end.

(** [update(i, i*i)] for [i] in [range(n)], as in the module's [__main__],
    and the pairs they store. *)
Definition square_ops (n : nat) : list op :=
  map (fun i => OpUpdate (PInt (Z.of_nat i)) (PInt (Z.of_nat i * Z.of_nat i))) (seq 0 n).

Definition square_items (n : nat) : list (pyobj * pyobj) :=
  map (fun i => (PInt (Z.of_nat i), PInt (Z.of_nat i * Z.of_nat i))) (seq 0 n).

End Scenario.

(** ** Notions used by the proofs *)

Module Analysis.
Import HashTable.

(** The (index, hash) pair after [n] calls of [__get_new_index]. *)
Fixpoint probe_iter (p : probe) (sz : Z) (n : nat) (ih : Z * Z) : Z * Z :=
  match n with
  | O => ih
  | S n => probe_iter p sz n (get_new_index p sz (fst ih) (snd ih))
  end.

Definition index_range (sz : Z) : list Z := map Z.of_nat (seq 0 (Z.to_nat sz)).

(** Index [j] comes up within [bound] probe steps from [(i, h)]. *)
Definition reaches_within (p : probe) (sz : Z) (bound : nat) (i h j : Z) : bool :=
  existsb (fun n => Z.eqb (fst (probe_iter p sz n (i, h))) j) (seq 0 (S bound)).

(** From every start index (hash 0) every index comes up within [bound]. *)
Definition covers_all (p : probe) (sz : Z) (bound : nat) : bool :=
  forallb (fun i => forallb (fun j => reaches_within p sz bound i 0 j) (index_range sz))
    (index_range sz).

(** What every public call keeps: a positive size and [0 <= used <= size]. *)
Definition sane (t : table) : Prop := 0 < size t /\ 0 <= used t <= size t.

(** A key whose hash [HashTableEntry] computes, as a 64-bit value. *)
Definition hashable (hf : pyobj -> outcome Z) (k : pyobj) : Prop :=
  k <> PNone /\ exists h, hf k = Done h /\ 0 <= h < 2 ^ 64.

(** A table of 8 or 16 slots without dummies, whose filled slots hold
    distinct hashable keys. *)
Definition good (hf : pyobj -> outcome Z) (t : table) : Prop :=
  length (internal_list t) = Z.to_nat (size t) /\
  (size t = 8 \/ size t = 16) /\
  (forall n, internal_list t !! n <> Some Dummy) /\
  NoDup (map fst (items t)) /\
  Forall (hashable hf) (map fst (items t)).

End Analysis.

Module Layout.
Import HashTable.

(** The size is [8] doubled some number of times, and the internal list
    has one slot per unit of size. *)
Definition shape (t : table) : Prop :=
  (exists n, 0 <= n /\ size t = 8 * 2 ^ n) /\ length (internal_list t) = Z.to_nat (size t).

(** No filled slot holds the key [None]. *)
Definition keys_ok (t : table) : Prop :=
  forall p, In p (items t) -> fst p <> PNone.

End Layout.

(** * Proofs *)

Module SipHashFacts.
Import SipHash.

Lemma land_low_shiftl (m y s : Z) :
  0 <= s -> 0 <= m < 2 ^ s -> Z.land m (Z.shiftl y s) = 0.
Proof.
  intros Hs Hm.
  assert (Hm' : Z.land m (Z.ones s) = m)
    by (rewrite Z.land_ones by lia; apply Z.mod_small; lia).
  rewrite <- Hm', <- Z.land_assoc, (Z.land_comm (Z.ones s)).
  rewrite Z.land_ones, Z.shiftl_mul_pow2, Z.mod_mul by (try lia; apply Z.pow_nonzero; lia).
  apply Z.land_0_r.
Qed.

Lemma compression_loop_negative (fuel : nat) (upper : Z) (v : state) :
  upper < 0 -> compression_loop fuel upper v = Stuck.
Proof.
  revert upper v; induction fuel as [|f IH]; intros upper v Hneg; simpl; [reflexivity |].
  destruct (Z.eqb_spec upper 0); [lia |].
  apply IH. apply Z.shiftr_neg. lia.
Qed.

Lemma add_size_byte_negative (n : Z) : n < 0 -> add_size_byte n < 0.
Proof.
  intros Hn. unfold add_size_byte. apply Z.lor_neg. lia.
Qed.

End SipHashFacts.

(** C8 (amended): for [m >= 0], [__add_size_byte] ORs the byte count
    [L' mod 256] (with [L'] the rounded-up byte length of the binary
    digits of [m]) into bit [64*W - 8], [W = (L' + 8) >> 3] words: the
    top byte of the [W]-word block.  The message lies below bit [8*L'],
    which is at most [64*W - 8], so the tag never overlaps it. *)
Theorem add_size_byte_layout (m : Z) :
  0 <= m ->
  let bits := if m =? 0 then 1 else Z.log2 m + 1 in
  let L' := (bits + 7) / 8 in
  let W := (L' + 8) / 8 in
  SipHash.add_size_byte m = Z.lor m (Z.shiftl (L' mod 256) (64 * W - 8)) /\
  m < 2 ^ (8 * L') /\ 8 * L' <= 64 * W - 8 /\
  Z.land m (Z.shiftl (L' mod 256) (64 * W - 8)) = 0.
Proof.
  intros Hm bits L' W.
  assert (Hbits : SipHash.bin_len_minus2 m = bits).
  { unfold SipHash.bin_len_minus2, bits.
    destruct (Z.eqb_spec m 0); [reflexivity |].
    destruct (Z.ltb_spec m 0); [lia | reflexivity]. }
  assert (Hb : 1 <= bits /\ m < 2 ^ bits).
  { unfold bits. destruct (Z.eqb_spec m 0) as [->|Hne]; [simpl; lia |].
    pose proof (Z.log2_spec m ltac:(lia)) as [_ H2].
    pose proof (Z.log2_nonneg m). rewrite <- Z.add_1_r in H2. lia. }
  assert (HL : bits <= 8 * L') by (unfold L'; pose proof (Z.div_mod (bits + 7) 8); pose proof (Z.mod_pos_bound (bits + 7) 8); lia).
  assert (HW : 8 * L' <= 64 * W - 8) by (unfold W; pose proof (Z.div_mod (L' + 8) 8); pose proof (Z.mod_pos_bound (L' + 8) 8); lia).
  assert (Hpow : m < 2 ^ (8 * L')).
  { apply Z.lt_le_trans with (2 ^ bits); [lia |]. apply Z.pow_le_mono_r; lia. }
  split; [| split; [exact Hpow | split; [exact HW |]]].
  - unfold SipHash.add_size_byte. rewrite Hbits.
    cbv zeta. rewrite !Z.shiftr_div_pow2 by lia.
    rewrite (Z.shiftl_mul_pow2 _ 6) by lia.
    change (2 ^ 3) with 8. change (2 ^ 6) with 64.
    rewrite (Z.land_ones _ 8) by lia. change (2 ^ 8) with 256.
    fold L'. fold W. f_equal. f_equal. lia.
  - apply SipHashFacts.land_low_shiftl.
    + pose proof (Z.div_pos (bits + 7) 8 ltac:(lia) ltac:(lia)). lia.
    + split; [exact Hm |]. apply Z.lt_le_trans with (2 ^ (8 * L')); [exact Hpow |].
      apply Z.pow_le_mono_r; lia.
Qed.

(** C8 as written fails at [m = 1]: the code puts the byte count at bit
    56 ([1 | 1 << 56]), not at bit [8*W - 8 = 0]. *)
Lemma add_size_byte_claimed_shift_fails :
  SipHash.add_size_byte 1 <> claimed_size_tag 1.
Proof. vm_compute. discriminate. Qed.

(** C7: hashing a negative integer never terminates.  Its tagged message
    is negative, [upper = msg >> 64] stays negative ([-1 >> 64 = -1]), and
    [while upper:] runs for ever, whatever the fuel. *)
Theorem get_hash_negative_int_diverges (fuel : nat) (secret_key : Z)
    (allow_negative : bool) (n : Z) :
  n < 0 -> SipHash.get_hash_with fuel secret_key allow_negative (PInt n) = Stuck.
Proof.
  intros Hn. unfold SipHash.get_hash_with, SipHash.siphash_main_with,
    SipHash.compression_with, SipHash.split_lower_upper_words, SipHash.message_of.
  cbv beta iota.
  rewrite SipHashFacts.compression_loop_negative; [reflexivity |].
  apply Z.shiftr_neg. apply SipHashFacts.add_size_byte_negative. exact Hn.
Qed.

Module TableFacts.
Import HashTable.

Lemma bind_done_inv {A B} (m : outcome A) (k : A -> outcome B) (b : B) :
  (x ← m; k x) = Done b -> exists a, m = Done a /\ k a = Done b.
Proof. destruct m; simpl; [eauto | discriminate | discriminate]. Qed.

Ltac inv_bind H :=
  let a := fresh "a" in let Ha := fresh "Ha" in
  apply bind_done_inv in H as (a & Ha & H).

Lemma replay_fold_not_done (upd : table -> pyobj -> pyobj -> outcome table)
    (its : list (pyobj * pyobj)) (o : outcome table) t :
  (forall s, o <> Done s) ->
  foldl (fun acc kv => s ← acc; upd s (fst kv) (snd kv)) o its <> Done t.
Proof.
  revert o; induction its as [|kv its IH]; intros o Ho; simpl; [apply Ho |].
  apply IH. intros s. destruct o; simpl; [exfalso; eapply Ho; reflexivity | discriminate | discriminate].
Qed.

(** Whatever the replay loop of [__increment_size] keeps, it keeps. *)
Lemma replay_invariant (P : table -> Prop) (upd : table -> pyobj -> pyobj -> outcome table)
    (its : list (pyobj * pyobj)) (t0 t3 : table) :
  (forall s k v s', P s -> upd s k v = Done s' -> P s') ->
  P t0 ->
  foldl (fun acc kv => s ← acc; upd s (fst kv) (snd kv)) (Done t0) its = Done t3 ->
  P t3.
Proof.
  intros Hupd; revert t0; induction its as [|[k v] its IH]; intros t0 H0 H; simpl in H.
  - congruence.
  - destruct (upd t0 k v) as [s'| |] eqn:E.
    + eapply IH; [eapply Hupd; eauto | exact H].
    + exfalso. eapply replay_fold_not_done; [| exact H]. intros s; discriminate.
    + exfalso. eapply replay_fold_not_done; [| exact H]. intros s; discriminate.
Qed.

Section WithHash.
Variable hf : pyobj -> outcome Z.

Lemma place_inv fuel t k v t' :
  place hf fuel t k v = Done t' ->
  exists index c e,
    lookup_key hf fuel t k false = Done (index, c) /\
    internal_list t !! Z.to_nat index = Some e /\
    size t' = size t /\ update_used t' = update_used t /\ strategy t' = strategy t /\
    used t' = (if negb (is_dummy e) && update_used t then used t + 1 else used t).
Proof.
  unfold place. intros H. inv_bind H. destruct a as [index c].
  simpl in H. destruct (internal_list t !! Z.to_nat index) as [e|] eqn:Ee; [| discriminate].
  inv_bind H. injection H as <-. exists index, c, e. simpl. repeat split; auto.
Qed.

(** An [update] that finds no resize necessary, as in the replay. *)
Lemma update_no_resize fuel t k v t' :
  used t + 1 <= load_factor * size t ->
  update hf fuel t k v = Done t' ->
  exists f index c e,
    fuel = S f /\
    lookup_key hf f t k false = Done (index, c) /\
    internal_list t !! Z.to_nat index = Some e /\
    size t' = size t /\ update_used t' = update_used t /\ strategy t' = strategy t /\
    used t' = (if negb (is_dummy e) && update_used t then used t + 1 else used t).
Proof.
  intros Hle H. destruct fuel as [|f]; [discriminate |]. simpl in H.
  unfold maybe_resize, resize_needed in H.
  destruct (Z.ltb_spec (load_factor * size t) (used t + 1)); [lia |].
  simpl in H. apply place_inv in H as (index & c & e & ? & ? & ?).
  exists f, index, c, e. auto.
Qed.

(** [__increment_size] run with [update]: the count is kept, the size
    doubled, the flag set again. *)
Lemma increment_size_counts f t t' :
  0 < size t -> used t <= size t ->
  increment_size (update hf f) t = Done t' ->
  used t' = used t /\ size t' = 2 * size t /\ update_used t' = true /\
  strategy t' = strategy t.
Proof.
  intros Hs Hu H. unfold increment_size in H. inv_bind H. injection H as <-. simpl.
  set (P := fun s : table => used s = used t /\ size s = 2 * size t /\
              update_used s = false /\ strategy s = strategy t).
  assert (HP : P a).
  { eapply (replay_invariant P); [| | exact Ha].
    - intros s k v s' (Hu' & Hs' & Hf & Hst) Hup.
      assert (Hle : used s + 1 <= load_factor * size s) by (unfold load_factor; lia).
      apply (update_no_resize f s k v s' Hle) in Hup
        as (f' & index & c & e & _ & _ & _ & E1 & E2 & E3 & E4).
      unfold P. rewrite E1, E2, E3, E4, Hf, Bool.andb_false_r. repeat split; congruence.
    - unfold P; simpl. rewrite Z.shiftl_mul_pow2 by lia. repeat split; lia. }
  destruct HP as (? & ? & ? & ?). auto.
Qed.

Lemma maybe_resize_counts f t t1 :
  0 < size t -> used t <= size t ->
  maybe_resize (update hf f) t = Done t1 ->
  strategy t1 = strategy t /\
  ((resize_needed t = true /\ used t1 = used t /\ size t1 = 2 * size t /\ update_used t1 = true) \/
   (resize_needed t = false /\ t1 = t)).
Proof.
  intros Hs Hu H. unfold maybe_resize in H.
  destruct (resize_needed t) eqn:Er.
  - apply increment_size_counts in H as (? & ? & ? & ?); auto.
    split; [assumption | left; auto].
  - injection H as <-. auto.
Qed.

(** The bound kept by every call of [update] from a public state. *)
Lemma update_bound fuel t k v t' :
  0 < size t -> 0 <= used t <= size t ->
  update hf fuel t k v = Done t' ->
  0 < size t' /\ 0 <= used t' <= size t' /\ strategy t' = strategy t.
Proof.
  intros Hs Hu H. destruct fuel as [|f]; [discriminate |]. simpl in H.
  inv_bind H. rename a into t1.
  apply maybe_resize_counts in Ha as (Hst & Hr); [| lia | lia].
  apply place_inv in H as (index & c & e & _ & _ & E1 & _ & E3 & E4).
  unfold resize_needed, load_factor in Hr.
  destruct Hr as [(Hn & Hu1 & Hs1 & _) | (Hn & ->)].
  - apply Z.ltb_lt in Hn.
    rewrite E1, E3, Hst, E4. destruct (negb (is_dummy e) && update_used t1); repeat split; lia.
  - apply Z.ltb_ge in Hn.
    rewrite E1, E3, E4. destruct (negb (is_dummy e) && update_used t); repeat split; lia.
Qed.

Lemma get_keeps fuel t k r t' :
  get hf fuel t k = Done (r, t') ->
  size t' = size t /\ used t' = used t /\ strategy t' = strategy t.
Proof.
  unfold get. intros H. inv_bind H. destruct a as [index c]. simpl in H.
  destruct (internal_list t !! Z.to_nat index) as [[]|]; simpl in H;
    try discriminate; injection H as _ <-; simpl; auto.
Qed.

Lemma remove_keeps fuel t k t' :
  remove hf fuel t k = Done t' ->
  size t' = size t /\ used t' = used t /\ strategy t' = strategy t.
Proof.
  unfold remove. intros H. inv_bind H. destruct a as [index c]. simpl in H.
  destruct (internal_list t !! Z.to_nat index) as [[]|]; simpl in H;
    try discriminate; injection H as <-; simpl; auto.
Qed.

End WithHash.
End TableFacts.

Module TableInvariant.
Import HashTable TableFacts Analysis.

Lemma run_op_sane hf fuel t o t' :
  sane t -> run_op hf fuel t o = Done t' -> sane t' /\ strategy t' = strategy t.
Proof.
  intros [Hs Hu] H. destruct o as [k|k v|k]; simpl in H.
  - inv_bind H. injection H as <-. destruct a as [r t1].
    apply get_keeps in Ha as (E1 & E2 & E3). unfold sane. simpl. rewrite E1, E2, E3. auto.
  - apply update_bound in H as (? & ? & ?); auto. split; [split|]; auto.
  - apply remove_keeps in H as (E1 & E2 & E3). unfold sane. rewrite E1, E2, E3. auto.
Qed.

Lemma reaches_sane hf t t' :
  sane t -> reaches hf t t' -> sane t' /\ strategy t' = strategy t.
Proof.
  intros Hs Hr. induction Hr as [t|fuel t o t1 t2 Hop Hr IH]; [auto |].
  apply run_op_sane in Hop as [Hs1 Hst1]; [| exact Hs].
  destruct (IH Hs1) as [? ?]. split; [assumption | congruence].
Qed.

Lemma init_sane cr t : init cr = Done t -> sane t.
Proof.
  unfold init. destruct (probe_of_string cr); [| discriminate].
  intros H; injection H as <-. unfold sane; simpl; lia.
Qed.

Lemma reachable_sane hf t : reachable hf t -> sane t.
Proof.
  intros (cr & t0 & Hi & Hr). eapply reaches_sane; [| exact Hr]. eapply init_sane; eauto.
Qed.

End TableInvariant.

(** C3: from any table reached by calls on a new table, a returning
    [update] leaves [used / size <= load_factor] (with [size > 0], as
    [used <= load_factor * size]). *)
Theorem update_load_factor_invariant (hf : pyobj -> outcome Z) (t : HashTable.table)
    (fuel : nat) (key value : pyobj) (t' : HashTable.table) :
  HashTable.reachable hf t ->
  HashTable.update hf fuel t key value = Done t' ->
  0 < HashTable.size t' /\
  HashTable.used t' <= HashTable.load_factor * HashTable.size t'.
Proof.
  intros Hr Hu. apply TableInvariant.reachable_sane in Hr as [Hs Hused].
  apply TableFacts.update_bound in Hu as (? & ? & _); [| assumption | assumption].
  unfold HashTable.load_factor. lia.
Qed.

(** C5: [update] adds one to [used] exactly when the slot its
    non-skipping lookup finds (after the resize check) is not a dummy and
    the call is not part of a resize replay ([update_used] is set); an
    overwrite of a filled slot holding the key counts too.  Public calls
    have [used <= size]; replay calls have [used + 1 <= size]. *)
Theorem update_used_increment (hf : pyobj -> outcome Z) (fuel : nat)
    (t : HashTable.table) (key value : pyobj) (t' : HashTable.table) :
  0 < HashTable.size t -> 0 <= HashTable.used t ->
  (HashTable.update_used t = true /\ HashTable.used t <= HashTable.size t \/
   HashTable.update_used t = false /\ HashTable.used t + 1 <= HashTable.size t) ->
  HashTable.update hf fuel t key value = Done t' ->
  exists f t1 index c e,
    fuel = S f /\
    HashTable.maybe_resize (HashTable.update hf f) t = Done t1 /\
    HashTable.used t1 = HashTable.used t /\
    HashTable.update_used t1 = HashTable.update_used t /\
    HashTable.lookup_key hf f t1 key false = Done (index, c) /\
    HashTable.internal_list t1 !! Z.to_nat index = Some e /\
    HashTable.used t' =
      (if negb (HashTable.is_dummy e) && HashTable.update_used t
       then HashTable.used t + 1 else HashTable.used t) /\
    (HashTable.is_filled e = true -> HashTable.update_used t = true ->
     HashTable.used t' = HashTable.used t + 1).
Proof.
  intros Hs Hu0 Hmode H. destruct fuel as [|f]; [discriminate |]. simpl in H.
  TableFacts.inv_bind H. rename a into t1.
  assert (Hle : HashTable.used t <= HashTable.size t) by (destruct Hmode; lia).
  pose proof Ha as Ha'.
  apply TableFacts.maybe_resize_counts in Ha' as (_ & Hr); [| exact Hs | exact Hle].
  assert (Ht1 : HashTable.used t1 = HashTable.used t /\
                HashTable.update_used t1 = HashTable.update_used t).
  { destruct Hr as [(Hn & E1 & _ & E2) | (_ & ->)]; [| auto].
    unfold HashTable.resize_needed, HashTable.load_factor in Hn. apply Z.ltb_lt in Hn.
    destruct Hmode as [[Hm _] | [_ Hm]]; [| lia]. rewrite E2, Hm. auto. }
  destruct Ht1 as [E1 E2].
  apply TableFacts.place_inv in H as (index & c & e & Hl & He & _ & _ & _ & Hused).
  exists f, t1, index, c, e. rewrite E1, E2 in Hused.
  repeat split; auto.
  intros Hf Hup. rewrite Hused, Hup. destruct e; simpl in *; congruence.
Qed.

(** C9: [HashTable(collision_resolution=...)] raises (the [assert]) for
    a name other than 'simple', 'modified', 'pythonic', and then yields
    no table; for those three it returns a table whose probe method is
    the named one, and no later call changes it. *)
Theorem init_fail_fast (collision_resolution : string) :
  (HashTable.init collision_resolution = Raised <->
   ~ In collision_resolution ["simple"%string; "modified"%string; "pythonic"%string]) /\
  ((forall t, HashTable.init collision_resolution <> Done t) <->
   ~ In collision_resolution ["simple"%string; "modified"%string; "pythonic"%string]) /\
  (forall t, HashTable.init collision_resolution = Done t ->
   HashTable.probe_of_string collision_resolution = Some (HashTable.strategy t)) /\
  (forall hf t t', HashTable.init collision_resolution = Done t ->
   HashTable.reaches hf t t' -> HashTable.strategy t' = HashTable.strategy t).
Proof.
  assert (Hps : HashTable.probe_of_string collision_resolution = None <->
                ~ In collision_resolution ["simple"%string; "modified"%string; "pythonic"%string]).
  { unfold HashTable.probe_of_string. simpl.
    destruct (String.eqb_spec collision_resolution "simple");
    [subst; split; [discriminate | intros H; exfalso; apply H; auto] |].
    destruct (String.eqb_spec collision_resolution "modified");
    [subst; split; [discriminate | intros H; exfalso; apply H; auto] |].
    destruct (String.eqb_spec collision_resolution "pythonic");
    [subst; split; [discriminate | intros H; exfalso; apply H; auto] |].
    split; [intros _ [H|[H|[H|[]]]]; congruence | reflexivity]. }
  unfold HashTable.init. split; [| split; [| split]].
  - rewrite <- Hps. destruct (HashTable.probe_of_string collision_resolution);
      split; congruence.
  - rewrite <- Hps. destruct (HashTable.probe_of_string collision_resolution);
      split; try congruence.
    intros H; exfalso; eapply H; reflexivity.
  - intros t. destruct (HashTable.probe_of_string collision_resolution); [| discriminate].
    intros H; injection H as <-. reflexivity.
  - intros hf t t' Hi Hr. eapply TableInvariant.reaches_sane; [| exact Hr].
    eapply TableInvariant.init_sane. unfold HashTable.init. exact Hi.
Qed.

Module LookupFacts.
Import HashTable TableFacts.

Lemma py_eq_refl (k : pyobj) : py_eq k k = true.
Proof. destruct k; simpl; auto using Z.eqb_refl, String.eqb_refl. Qed.

Lemma py_eq_true (a b : pyobj) : py_eq a b = true -> a = b.
Proof.
  destruct a, b; simpl; try discriminate; auto.
  - intros H. apply Z.eqb_eq in H. congruence.
  - intros H. apply String.eqb_eq in H. congruence.
  - intros H. apply Z.eqb_eq in H. congruence.
Qed.

Lemma stops_skip (key : pyobj) (h0 : Z) (e : entry) :
  stops false key h0 e = false -> stops true key h0 e = false.
Proof. destruct e; simpl; congruence. Qed.

(** The loop returns only at a slot where it stops. *)
Lemma loop_result_stops fuel p sz (l : list entry) skip key h0 i h j c :
  lookup_loop fuel p sz l skip key h0 i h = Done (j, c) ->
  exists e, l !! Z.to_nat j = Some e /\ stops skip key h0 e = true.
Proof.
  revert i h c; induction fuel as [|f IH]; intros i h c H; simpl in H; [discriminate |].
  destruct (l !! Z.to_nat i) as [e|] eqn:Ei; [| discriminate].
  destruct (stops skip key h0 e) eqn:Es.
  - injection H as <- _. eauto.
  - destruct (get_new_index p sz i h) as [i' h'].
    inv_bind H. destruct a as [j' c']. injection H as <- _. eapply IH; exact Ha.
Qed.

(** Writing the key at the slot the non-skipping loop returned makes the
    skipping loop return there too, after the same probes. *)
Lemma loop_insert_found fuel p sz (l : list entry) key value h0 i h j c :
  lookup_loop fuel p sz l false key h0 i h = Done (j, c) ->
  lookup_loop fuel p sz (<[Z.to_nat j := Filled key value h0]> l) true key h0 i h = Done (j, c).
Proof.
  intros H. destruct (loop_result_stops _ _ _ _ _ _ _ _ _ _ _ H) as (ej & Ej & Hsj).
  assert (Hj : (Z.to_nat j < length l)%nat) by (eapply lookup_lt_Some; eauto).
  revert i h c H; induction fuel as [|f IH]; intros i h c H; [discriminate |].
  simpl in H |- *.
  destruct (l !! Z.to_nat i) as [e|] eqn:Ei; [| discriminate].
  destruct (Nat.eq_dec (Z.to_nat i) (Z.to_nat j)) as [Eq|Ne].
  - rewrite Eq in Ei. rewrite Ei in Ej. injection Ej as ->. rewrite Hsj in H.
    injection H as <- <-.
    rewrite (list_lookup_insert_eq l _ _ Hj). simpl.
    rewrite Z.eqb_refl, py_eq_refl. reflexivity.
  - rewrite list_lookup_insert_ne by (intros E; apply Ne; symmetry; exact E).
    rewrite Ei.
    destruct (stops false key h0 e) eqn:Es.
    + injection H as -> _. contradiction.
    + rewrite (stops_skip _ _ _ Es).
      destruct (get_new_index p sz i h) as [i' h'].
      inv_bind H. destruct a as [j' c']. injection H as <- <-.
      rewrite (IH _ _ _ Ha). reflexivity.
Qed.

Lemma get_items_In (l : list entry) n k v h :
  l !! n = Some (Filled k v h) -> In (k, v) (get_items l).
Proof.
  revert n; induction l as [|e l IH]; intros n H; [discriminate |].
  destruct n as [|n]; simpl in H.
  - injection H as ->. simpl. auto.
  - specialize (IH _ H). destruct e; simpl; auto.
Qed.

Section WithHash.
Variable hf : pyobj -> outcome Z.

(** Right after [update(k, v)] returns, [get(k)] returns [v]. *)
Lemma update_then_get fuel t key value t' :
  update hf fuel t key value = Done t' ->
  exists f t'', get hf f t' key = Done (value, t'').
Proof.
  intros H. destruct fuel as [|f]; [discriminate |]. simpl in H.
  inv_bind H. rename a into t1. clear Ha.
  unfold place in H. inv_bind H. destruct a as [j c]. simpl in H.
  destruct (internal_list t1 !! Z.to_nat j) as [e|] eqn:Ej; [| discriminate].
  unfold lookup_key in Ha. inv_bind Ha. destruct a as [h|]; [| discriminate].
  inv_bind H. unfold new_entry in Ha1. rewrite Ha0 in Ha1. simpl in Ha1.
  injection Ha1 as <-. injection H as <-.
  exists f. unfold get, lookup_key. rewrite Ha0. simpl.
  rewrite (loop_insert_found _ _ _ _ _ _ _ _ _ _ _ Ha).
  simpl. rewrite list_lookup_insert_eq by (eapply lookup_lt_Some; eauto).
  eexists; reflexivity.
Qed.

(** A [get] that returns on a key with no filled slot returns [None]. *)
Lemma get_absent fuel t key r t'' :
  ~ In key (map fst (items t)) ->
  get hf fuel t key = Done (r, t'') -> r = PNone.
Proof.
  intros Hnot H. unfold get in H. inv_bind H. destruct a as [j c]. simpl in H.
  unfold lookup_key in Ha. inv_bind Ha. destruct a as [h|]; [| discriminate].
  destruct (loop_result_stops _ _ _ _ _ _ _ _ _ _ _ Ha) as (e & Ej & Hs).
  rewrite Ej in H. destruct e as [|k' v' h'|]; injection H as <- _; try reflexivity.
  exfalso. apply Hnot. simpl in Hs.
  destruct (Z.eqb h h'); simpl in Hs; [| discriminate].
  apply py_eq_true in Hs. subst k'.
  apply in_map_iff. exists (key, v'). split; [reflexivity |].
  eapply get_items_In; exact Ej.
Qed.

End WithHash.
End LookupFacts.

(** C10: [get] gives [None] both for a key stored with value [None] and
    for a key absent from the table: right after [update(k, None)],
    [get(k)] returns [None], and any [get] that returns on a key held by
    no filled slot returns [None] as well. *)
Theorem get_none_ambiguous (hf : pyobj -> outcome Z) (fuel : nat)
    (t : HashTable.table) (key : pyobj) (t' : HashTable.table) :
  HashTable.update hf fuel t key PNone = Done t' ->
  (exists f t'', HashTable.get hf f t' key = Done (PNone, t'')) /\
  (forall f key' r t'', ~ In key' (map fst (HashTable.items t')) ->
     HashTable.get hf f t' key' = Done (r, t'') -> r = PNone).
Proof.
  intros H. split.
  - eapply LookupFacts.update_then_get; exact H.
  - intros f key' r t'' Hn Hg. eapply LookupFacts.get_absent; eauto.
Qed.

Module Determinism.
Import HashTable TableFacts.

Lemma lookup_loop_det f f' p sz (l : list entry) skip key h0 i h r r' :
  lookup_loop f p sz l skip key h0 i h = Done r ->
  lookup_loop f' p sz l skip key h0 i h = Done r' -> r = r'.
Proof.
  revert f' i h r r'; induction f as [|f IH]; intros f' i h r r' H H'; [discriminate |].
  destruct f' as [|f']; [discriminate |]. simpl in H, H'.
  destruct (l !! Z.to_nat i) as [e|]; [| discriminate].
  destruct (stops skip key h0 e); [congruence |].
  destruct (get_new_index p sz i h) as [i' h'].
  inv_bind H. inv_bind H'. rewrite (IH _ _ _ _ _ Ha Ha0) in H. congruence.
Qed.

Lemma get_det hf f f' t key r r' :
  get hf f t key = Done r -> get hf f' t key = Done r' -> r = r'.
Proof.
  unfold get, lookup_key. intros H H'.
  destruct (entry_hash_value hf key) as [[h|]| |]; simpl in H, H'; try discriminate.
  inv_bind H. inv_bind H'.
  rewrite (lookup_loop_det _ _ _ _ _ _ _ _ _ _ _ _ Ha Ha0) in H. congruence.
Qed.

(** A probe loop over slots none of which stops it never returns. *)
Lemma lookup_loop_no_stop fuel p sz (l : list entry) skip key h0 i h r :
  forallb (fun e => negb (stops skip key h0 e)) l = true ->
  lookup_loop fuel p sz l skip key h0 i h <> Done r.
Proof.
  intros Hall. revert i h r; induction fuel as [|f IH]; intros i h r; simpl; [discriminate |].
  destruct (l !! Z.to_nat i) as [e|] eqn:Ei; [| discriminate].
  assert (Hs : stops skip key h0 e = false).
  { apply list_elem_of_lookup_2 in Ei. rewrite forallb_forall in Hall.
    apply list_elem_of_In in Ei. specialize (Hall _ Ei). destruct (stops skip key h0 e); auto. }
  rewrite Hs. destruct (get_new_index p sz i h) as [i' h'].
  destruct (lookup_loop f p sz l skip key h0 i' h') as [r'| |] eqn:E; simpl; try discriminate.
  exfalso. eapply IH. exact E.
Qed.
End Determinism.

Module Runs.
Import HashTable Scenario.

Lemma get_det_value hf f0 t key v x :
  get hf f0 t key = Done (v, x) ->
  forall f r t'', get hf f t key = Done (r, t'') -> r = v.
Proof.
  intros H0 f r t'' H. pose proof (Determinism.get_det _ _ _ _ _ _ _ H H0). congruence.
Qed.

(** Evaluate a call on concrete data, keeping the equation. *)
Ltac concrete E :=
  let E' := fresh "E" in
  pose proof E as E'; vm_compute in E'; first [discriminate E' | injection E'; intros; subst].

End Runs.

(** C1 fails: after [update(3, 2)] (with [3 -> 1] left in a later slot by
    the reuse of a dummy slot), [get(3)] gives 2; six more updates of
    other keys and a seventh that resizes replay both pairs for key 3 in
    slot order, the stale one last, and from then on every [get(3)] that
    returns gives 1.  No [update] or [remove] of key 3 happened. *)
Lemma update_roundtrip_lost_on_resize :
  exists t1 t1' t2,
    HashTable.run_ops Scenario.hf0 30 (Scenario.fresh HashTable.Simple) Scenario.dup_ops = Done t1 /\
    HashTable.get Scenario.hf0 30 t1 (PInt 3) = Done (PInt 2, t1') /\
    forallb (fun o => negb (Scenario.touches (PInt 3) o))
      (Scenario.fill_ops ++ [HashTable.OpUpdate (PInt 16) (PInt 0)]) = true /\
    HashTable.run_ops Scenario.hf0 30 t1
      (Scenario.fill_ops ++ [HashTable.OpUpdate (PInt 16) (PInt 0)]) = Done t2 /\
    HashTable.size t2 = 16 /\
    (exists t2', HashTable.get Scenario.hf0 30 t2 (PInt 3) = Done (PInt 1, t2')) /\
    (forall f r t'', HashTable.get Scenario.hf0 f t2 (PInt 3) = Done (r, t'') -> r = PInt 1).
Proof.
  destruct (HashTable.run_ops Scenario.hf0 30 (Scenario.fresh HashTable.Simple) Scenario.dup_ops)
    as [t1| |] eqn:E1; [| Runs.concrete E1 | Runs.concrete E1].
  destruct (HashTable.get Scenario.hf0 30 t1 (PInt 3)) as [[r1 t1']| |] eqn:G1;
  destruct (HashTable.run_ops Scenario.hf0 30 t1
      (Scenario.fill_ops ++ [HashTable.OpUpdate (PInt 16) (PInt 0)])) as [t2| |] eqn:E2;
  try destruct (HashTable.get Scenario.hf0 30 t2 (PInt 3)) as [[r2 t2']| |] eqn:G2;
  Runs.concrete E1; Runs.concrete G1; Runs.concrete E2; Runs.concrete G2.
  do 3 eexists. split; [exact E1 |]. split; [exact G1 |].
  split; [reflexivity |]. split; [exact E2 |]. split; [reflexivity |].
  split; [eexists; exact G2 |].
  exact (Runs.get_det_value _ _ _ _ _ _ G2).
Qed.

(** C2 fails: in the run of C1, [remove(3)] turns slot 0 into a dummy
    but the stale pair [3 -> 1] in slot 1 is still reached, so every
    [get(3)] that returns gives 1, not [None]. *)
Lemma remove_then_get_finds_stale :
  exists t1 t1',
    HashTable.run_ops Scenario.hf0 30 (Scenario.fresh HashTable.Simple)
      (Scenario.dup_ops ++ [HashTable.OpRemove (PInt 3)]) = Done t1 /\
    HashTable.internal_list t1 !! 0%nat = Some HashTable.Dummy /\
    HashTable.get Scenario.hf0 30 t1 (PInt 3) = Done (PInt 1, t1') /\
    (forall f r t'', HashTable.get Scenario.hf0 f t1 (PInt 3) = Done (r, t'') -> r <> PNone).
Proof.
  destruct (HashTable.run_ops Scenario.hf0 30 (Scenario.fresh HashTable.Simple)
      (Scenario.dup_ops ++ [HashTable.OpRemove (PInt 3)])) as [t1| |] eqn:E1;
  [| Runs.concrete E1 | Runs.concrete E1].
  destruct (HashTable.get Scenario.hf0 30 t1 (PInt 3)) as [[r1 t1']| |] eqn:G1;
  Runs.concrete E1; Runs.concrete G1.
  do 2 eexists. split; [exact E1 |]. split; [reflexivity |]. split; [exact G1 |].
  intros f r t'' H. rewrite (Runs.get_det_value _ _ _ _ _ _ G1 _ _ _ H). discriminate.
Qed.

(** A second way C2 fails: with keys [0 .. 7] filling all eight slots and
    [0] removed, no slot is empty, so [get(0)] probes for ever. *)
Lemma get_after_remove_in_full_table_never_returns :
  exists t1,
    HashTable.run_ops Scenario.hf0 30 (Scenario.fresh HashTable.Simple)
      (Scenario.square_ops 8 ++ [HashTable.OpRemove (PInt 0)]) = Done t1 /\
    forall f r, HashTable.get Scenario.hf0 f t1 (PInt 0) <> Done r.
Proof.
  destruct (HashTable.run_ops Scenario.hf0 30 (Scenario.fresh HashTable.Simple)
      (Scenario.square_ops 8 ++ [HashTable.OpRemove (PInt 0)])) as [t1| |] eqn:E1;
  Runs.concrete E1.
  eexists. split; [exact E1 |]. intros f r.
  unfold HashTable.get, HashTable.lookup_key.
  assert (Hh : HashTable.entry_hash_value Scenario.hf0 (PInt 0) = Done (Some 10041351145189524877))
    by (vm_compute; reflexivity).
  rewrite Hh. simpl.
  intros H. apply TableFacts.bind_done_inv in H as (a & Ha & _).
  eapply Determinism.lookup_loop_no_stop; [| exact Ha]. vm_compute. reflexivity.
Qed.

(** C4 fails: in the run of C1, just before the resize the table holds
    both [(3, 2)] and [(3, 1)]; the replay keeps only the later one. *)
Lemma resize_drops_pair :
  exists t tr,
    HashTable.run_ops Scenario.hf0 30 (Scenario.fresh HashTable.Simple)
      (Scenario.dup_ops ++ Scenario.fill_ops) = Done t /\
    HashTable.resize_needed t = true /\
    HashTable.maybe_resize (HashTable.update Scenario.hf0 29) t = Done tr /\
    In (PInt 3, PInt 2) (HashTable.items t) /\
    ~ In (PInt 3, PInt 2) (HashTable.items tr) /\
    In (PInt 3, PInt 1) (HashTable.items tr).
Proof.
  destruct (HashTable.run_ops Scenario.hf0 30 (Scenario.fresh HashTable.Simple)
      (Scenario.dup_ops ++ Scenario.fill_ops)) as [t| |] eqn:E1;
  [| Runs.concrete E1 | Runs.concrete E1].
  destruct (HashTable.maybe_resize (HashTable.update Scenario.hf0 29) t) as [tr| |] eqn:E2;
  Runs.concrete E1; Runs.concrete E2.
  do 2 eexists. split; [exact E1 |]. split; [reflexivity |]. split; [exact E2 |].
  split; [simpl; tauto |]. split; [simpl; intuition discriminate | simpl; tauto].
Qed.

Module Coverage.
Import HashTable Analysis.

Lemma probe_iter_add p sz a b ih :
  probe_iter p sz (a + b) ih = probe_iter p sz b (probe_iter p sz a ih).
Proof. revert ih; induction a as [|a IH]; intros ih; simpl; auto. Qed.

Lemma land_mask_range (x sz : Z) : (sz = 8 \/ sz = 16) -> 0 <= Z.land x (sz - 1) < sz.
Proof.
  intros [-> | ->].
  - change (8 - 1) with (Z.ones 3). rewrite Z.land_ones by lia.
    apply Z.mod_pos_bound. reflexivity.
  - change (16 - 1) with (Z.ones 4). rewrite Z.land_ones by lia.
    apply Z.mod_pos_bound. reflexivity.
Qed.

Lemma probe_iter_range p sz n i h :
  (sz = 8 \/ sz = 16) -> 0 <= i < sz -> 0 <= fst (probe_iter p sz n (i, h)) < sz.
Proof.
  intros Hsz. revert i h; induction n as [|n IH]; intros i h Hi; simpl; [exact Hi |].
  destruct (get_new_index p sz i h) as [i' h'] eqn:E. simpl. apply IH.
  destruct p; simpl in E; injection E as <- _; apply land_mask_range; exact Hsz.
Qed.

(** Simple and modified probing never read the hash. *)
Lemma probe_iter_hash_free p sz n i h :
  p <> Pythonic -> probe_iter p sz n (i, h) = (fst (probe_iter p sz n (i, 0)), h).
Proof.
  intros Hp. revert i; induction n as [|n IH]; intros i; [reflexivity |].
  destruct p; [| | congruence]; simpl; rewrite IH; reflexivity.
Qed.

Lemma probe_iter_pythonic_hash sz n i h :
  snd (probe_iter Pythonic sz n (i, h)) = Z.shiftr h (5 * Z.of_nat n).
Proof.
  revert i h; induction n as [|n IH]; intros i h; simpl.
  - rewrite Z.shiftr_0_r. reflexivity.
  - rewrite IH, Z.shiftr_shiftr by lia. f_equal. lia.
Qed.

Lemma probe_iter_pythonic_zero sz n i :
  probe_iter Pythonic sz n (i, 0) = probe_iter Modified sz n (i, 0).
Proof.
  revert i; induction n as [|n IH]; intros i; [reflexivity |].
  simpl. rewrite Z.add_0_r. apply IH.
Qed.

Lemma covers_all_spec p sz bound i j :
  covers_all p sz bound = true -> 0 <= i < sz -> 0 <= j < sz ->
  exists n, (n <= bound)%nat /\ fst (probe_iter p sz n (i, 0)) = j.
Proof.
  intros H Hi Hj. unfold covers_all in H. rewrite forallb_forall in H.
  assert (Hin : forall x, 0 <= x < sz -> In x (index_range sz)).
  { intros x Hx. unfold index_range. apply in_map_iff. exists (Z.to_nat x).
    split; [lia |]. apply in_seq. lia. }
  specialize (H i (Hin i Hi)). rewrite forallb_forall in H.
  specialize (H j (Hin j Hj)). unfold reaches_within in H.
  apply existsb_exists in H as (n & Hn & Heq). apply in_seq in Hn.
  exists n. split; [lia |]. apply Z.eqb_eq. exact Heq.
Qed.

Lemma covers_modified sz : (sz = 8 \/ sz = 16) -> covers_all Modified sz 16 = true.
Proof. intros [-> | ->]; vm_compute; reflexivity. Qed.

Lemma covers_simple sz : (sz = 8 \/ sz = 16) -> covers_all Simple sz 16 = true.
Proof. intros [-> | ->]; vm_compute; reflexivity. Qed.

(** Every probe sequence of a table of 8 or 16 slots meets every index
    within 29 steps (pythonic probing: the hash is spent after 13 steps,
    then it is the modified sequence). *)
Lemma probe_covers p sz i h j :
  (sz = 8 \/ sz = 16) -> 0 <= i < sz -> 0 <= h < 2 ^ 64 -> 0 <= j < sz ->
  exists n, (n <= 29)%nat /\ fst (probe_iter p sz n (i, h)) = j.
Proof.
  intros Hsz Hi Hh Hj. destruct p.
  - destruct (covers_all_spec _ _ _ i j (covers_simple sz Hsz) Hi Hj) as (n & Hn & E).
    exists n. split; [lia |]. rewrite probe_iter_hash_free by discriminate. exact E.
  - destruct (covers_all_spec _ _ _ i j (covers_modified sz Hsz) Hi Hj) as (n & Hn & E).
    exists n. split; [lia |]. rewrite probe_iter_hash_free by discriminate. exact E.
  - destruct (probe_iter Pythonic sz 13 (i, h)) as [i13 h13] eqn:E13.
    assert (H13 : h13 = 0).
    { pose proof (probe_iter_pythonic_hash sz 13 i h) as Hs. rewrite E13 in Hs. simpl in Hs.
      rewrite Hs, Z.shiftr_div_pow2 by lia. apply Z.div_small. split; [lia |].
      apply Z.lt_le_trans with (2 ^ 64); [lia |]. apply Z.pow_le_mono_r; lia. }
    assert (Hi13 : 0 <= i13 < sz).
    { pose proof (probe_iter_range Pythonic sz 13 i h Hsz Hi) as R. rewrite E13 in R. exact R. }
    subst h13.
    destruct (covers_all_spec _ _ _ i13 j (covers_modified sz Hsz) Hi13 Hj) as (n & Hn & E).
    exists (13 + n)%nat. split; [lia |].
    rewrite probe_iter_add, E13, probe_iter_pythonic_zero. exact E.
Qed.

End Coverage.

Module Placement.
Import HashTable TableFacts Analysis Coverage LookupFacts.

(** The probe loop returns once it meets a slot where it stops, provided
    every slot it visits on the way exists. *)
Lemma loop_terminates p sz (l : list entry) skip key h0 n fuel i h :
  (n < fuel)%nat ->
  (forall m, (m <= n)%nat -> exists e, l !! Z.to_nat (fst (probe_iter p sz m (i, h))) = Some e) ->
  (exists e, l !! Z.to_nat (fst (probe_iter p sz n (i, h))) = Some e /\ stops skip key h0 e = true) ->
  exists r, lookup_loop fuel p sz l skip key h0 i h = Done r.
Proof.
  revert fuel i h; induction n as [|n IH]; intros fuel i h Hn Hall Hstop.
  - destruct fuel as [|f]; [lia |]. destruct Hstop as (e & Ee & Hs). simpl in Ee.
    simpl. rewrite Ee, Hs. eauto.
  - destruct fuel as [|f]; [lia |]. simpl.
    destruct (Hall 0%nat ltac:(lia)) as (e & Ee). simpl in Ee. rewrite Ee.
    destruct (stops skip key h0 e); [eauto |].
    destruct (get_new_index p sz i h) as [i' h'] eqn:Eg.
    destruct (IH f i' h') as (r & Hr).
    + lia.
    + intros m Hm. destruct (Hall (S m) ltac:(lia)) as (e' & Ee'). simpl in Ee'.
      rewrite Eg in Ee'. eauto.
    + destruct Hstop as (e' & Ee' & Hs'). simpl in Ee'. rewrite Eg in Ee'. eauto.
    + rewrite Hr. simpl. eauto.
Qed.

Lemma exists_empty (l : list entry) :
  (forall n, l !! n <> Some Dummy) ->
  (length (get_items l) < length l)%nat ->
  exists n, l !! n = Some Empty.
Proof.
  induction l as [|e l IH]; intros Hd Hlen; simpl in Hlen; [lia |].
  destruct e as [|k v h|].
  - exists 0%nat. reflexivity.
  - simpl in Hlen. destruct IH as (n & Hn).
    + intros n. exact (Hd (S n)).
    + lia.
    + exists (S n). exact Hn.
  - exfalso. exact (Hd 0%nat eq_refl).
Qed.

Lemma get_items_length (l : list entry) : (length (get_items l) <= length l)%nat.
Proof. induction l as [|[] l IH]; simpl; lia. Qed.

Lemma get_items_insert_empty (l : list entry) n k v h :
  l !! n = Some Empty ->
  get_items (<[n := Filled k v h]> l) ≡ₚ (k, v) :: get_items l.
Proof.
  revert n; induction l as [|e l IH]; intros n Hn; [discriminate |].
  destruct n as [|n]; simpl in Hn |- *.
  - injection Hn as ->. reflexivity.
  - specialize (IH n Hn). destruct e; simpl; try exact IH.
    rewrite IH. constructor.
Qed.

Section WithHash.
Variable hf : pyobj -> outcome Z.

Lemma hashable_entry_hash key :
  hashable hf key -> exists h, entry_hash_value hf key = Done (Some h) /\ 0 <= h < 2 ^ 64.
Proof.
  intros (Hn & h & Hh & Hr). exists h. split; [| exact Hr].
  destruct key; [congruence | | |]; simpl; rewrite Hh; reflexivity.
Qed.

(** The non-skipping lookup of a key absent from a dummy-free table with
    an empty slot returns an empty slot. *)
Lemma lookup_fresh f t key :
  good hf t -> hashable hf key -> ~ In key (map fst (items t)) ->
  (length (items t) < Z.to_nat (size t))%nat -> (30 <= f)%nat ->
  exists j c h,
    lookup_key hf f t key false = Done (j, c) /\
    entry_hash_value hf key = Done (Some h) /\
    internal_list t !! Z.to_nat j = Some Empty.
Proof.
  intros (Hlen & Hsz & Hnd & _ & _) Hk Hnot Hfree Hf.
  destruct (hashable_entry_hash key Hk) as (h & Eh & Hh).
  destruct (exists_empty (internal_list t) Hnd) as (ne & Ene).
  { unfold items in Hfree. lia. }
  assert (Hne : (ne < length (internal_list t))%nat) by (eapply lookup_lt_Some; eauto).
  set (i0 := Z.land h (size t - 1)).
  assert (Hi0 : 0 <= i0 < size t) by (apply land_mask_range; exact Hsz).
  destruct (probe_covers (strategy t) (size t) i0 h (Z.of_nat ne) Hsz Hi0 Hh ltac:(lia))
    as (m & Hm & Em).
  destruct (loop_terminates (strategy t) (size t) (internal_list t) false key h m f i0 h)
    as ([j c] & Hloop).
  - lia.
  - intros m' _. apply lookup_lt_is_Some_2.
    pose proof (probe_iter_range (strategy t) (size t) m' i0 h Hsz Hi0). lia.
  - exists Empty. rewrite Em, Nat2Z.id. split; [exact Ene | reflexivity].
  - exists j, c, h. unfold lookup_key. rewrite Eh. simpl. split; [exact Hloop |].
    split; [reflexivity |].
    destruct (loop_result_stops _ _ _ _ _ _ _ _ _ _ _ Hloop) as (e & Ej & Hs).
    rewrite Ej. destruct e as [|k' v' h'|]; [reflexivity | | exfalso; exact (Hnd _ Ej)].
    exfalso. apply Hnot. simpl in Hs. destruct (Z.eqb h h'); simpl in Hs; [| discriminate].
    apply py_eq_true in Hs. subst k'. apply in_map_iff. exists (key, v').
    split; [reflexivity |]. eapply get_items_In; exact Ej.
Qed.

Lemma good_after_insert t key value h j :
  good hf t -> hashable hf key -> ~ In key (map fst (items t)) ->
  internal_list t !! Z.to_nat j = Some Empty ->
  length (<[Z.to_nat j := Filled key value h]> (internal_list t)) = Z.to_nat (size t) /\
  (forall n, <[Z.to_nat j := Filled key value h]> (internal_list t) !! n <> Some Dummy) /\
  get_items (<[Z.to_nat j := Filled key value h]> (internal_list t)) ≡ₚ (key, value) :: items t /\
  NoDup (map fst (get_items (<[Z.to_nat j := Filled key value h]> (internal_list t)))) /\
  Forall (hashable hf) (map fst (get_items (<[Z.to_nat j := Filled key value h]> (internal_list t)))).
Proof.
  intros (Hlen & _ & Hnd & Hnodup & Hall) Hk Hnot Ej.
  assert (Hp := get_items_insert_empty _ _ key value h Ej).
  split; [rewrite length_insert; exact Hlen |].
  split.
  { intros n. destruct (decide (n = Z.to_nat j)) as [->|Hne].
    - rewrite list_lookup_insert_eq by (eapply lookup_lt_Some; eauto). discriminate.
    - rewrite list_lookup_insert_ne by congruence. apply Hnd. }
  split; [exact Hp |].
  assert (Hpm : map fst (get_items (<[Z.to_nat j := Filled key value h]> (internal_list t)))
                  ≡ₚ key :: map fst (items t)).
  { change (key :: map fst (items t)) with (map fst ((key, value) :: items t)).
    apply Permutation_map. exact Hp. }
  split.
  - rewrite Hpm. apply NoDup_cons_2; [rewrite list_elem_of_In |]; assumption.
  - rewrite Hpm. apply Forall_cons; split; assumption.
Qed.

(** Inserting a fresh key where a slot is free. *)
Lemma place_fresh f t key value :
  good hf t -> hashable hf key -> ~ In key (map fst (items t)) ->
  (length (items t) < Z.to_nat (size t))%nat -> (30 <= f)%nat ->
  exists t', place hf f t key value = Done t' /\ good hf t' /\
    items t' ≡ₚ (key, value) :: items t /\ size t' = size t /\
    used t' = (if update_used t then used t + 1 else used t) /\
    update_used t' = update_used t /\ strategy t' = strategy t.
Proof.
  intros Hg Hk Hnot Hfree Hf.
  destruct (lookup_fresh f t key Hg Hk Hnot Hfree Hf) as (j & c & h & Hl & Eh & Ej).
  destruct (good_after_insert t key value h j Hg Hk Hnot Ej)
    as (Hlen & Hnd & Hp & Hnodup & Hall).
  destruct Hg as (_ & Hsz & _).
  eexists. unfold place. rewrite Hl. simpl. rewrite Ej. unfold new_entry. rewrite Eh.
  simpl. split; [reflexivity |].
  unfold good, items. simpl. repeat split; auto.
Qed.

(** [update] of a fresh key when no resize is due. *)
Lemma update_fresh_no_resize f t key value :
  good hf t -> hashable hf key -> ~ In key (map fst (items t)) ->
  (length (items t) < Z.to_nat (size t))%nat -> (31 <= f)%nat ->
  resize_needed t = false ->
  exists t', update hf f t key value = Done t' /\ good hf t' /\
    items t' ≡ₚ (key, value) :: items t /\ size t' = size t /\
    used t' = (if update_used t then used t + 1 else used t) /\
    update_used t' = update_used t /\ strategy t' = strategy t.
Proof.
  intros Hg Hk Hnot Hfree Hf Hr.
  destruct f as [|f]; [lia |]. simpl. unfold maybe_resize. rewrite Hr. simpl.
  apply place_fresh; auto; lia.
Qed.

Lemma repeat_no_dummy n k : repeat Empty n !! k <> Some Dummy.
Proof.
  intros H. apply list_elem_of_lookup_2, list_elem_of_In, repeat_spec in H. discriminate.
Qed.

Lemma get_items_repeat_empty n : get_items (repeat Empty n) = [].
Proof. induction n; simpl; auto. Qed.

(** The replay of [__increment_size]: fresh, distinct keys into a
    16-slot table with the [used] count frozen. *)
Lemma replay_fresh f (its : list (pyobj * pyobj)) s :
  good hf s -> size s = 16 -> update_used s = false -> used s + 1 <= size s ->
  NoDup (map fst its) -> Forall (hashable hf) (map fst its) ->
  (forall k, In k (map fst its) -> ~ In k (map fst (items s))) ->
  (length (items s) + length its <= 16)%nat -> (31 <= f)%nat ->
  exists s', foldl (fun acc kv => x ← acc; update hf f x (fst kv) (snd kv)) (Done s) its = Done s' /\
    good hf s' /\ items s' ≡ₚ its ++ items s /\ used s' = used s /\ size s' = 16 /\
    update_used s' = false /\ strategy s' = strategy s.
Proof.
  revert s; induction its as [|[k v] its IH]; intros s Hg Hsz Hu Hused Hnd Hall Hfresh Hlen Hf.
  - exists s. simpl. repeat split; auto. destruct Hg as (? & ? & ? & ? & ?); auto.
    all: destruct Hg as (? & ? & ? & ? & ?); auto.
  - simpl in Hnd, Hall, Hlen |- *. apply NoDup_cons in Hnd as [Hkn Hnd]. rewrite list_elem_of_In in Hkn.
    apply Forall_cons in Hall as [Hk Hall].
    destruct (update_fresh_no_resize f s k v) as (s1 & E1 & Hg1 & Hp1 & Hsz1 & Hu1 & Huu1 & Hst1);
      auto.
    + apply Hfresh. left. reflexivity.
    + rewrite Hsz. lia.
    + unfold resize_needed, load_factor. apply Z.ltb_ge. lia.
    + rewrite E1. rewrite Hu in Hu1.
      destruct (IH s1) as (s' & E' & Hg' & Hp' & Hu' & Hsz' & Huu' & Hst'); auto.
      * lia.
      * congruence.
      * lia.
      * intros k' Hk' Hin. apply (Permutation_map fst) in Hp1. simpl in Hp1.
        apply (Permutation_in _ Hp1) in Hin. destruct Hin as [<-|Hin]; [contradiction |].
        exact (Hfresh k' (or_intror Hk') Hin).
      * apply Permutation_length in Hp1. simpl in Hp1. lia.
      * exists s'. split; [exact E' |]. split; [exact Hg' |].
        split; [rewrite Hp', Hp1; symmetry; apply Permutation_middle |].
        repeat split; congruence.
Qed.

(** [__increment_size] on an 8-slot table of distinct hashable keys. *)
Lemma increment_size_fresh f t :
  good hf t -> size t = 8 -> 0 <= used t <= 8 -> (31 <= f)%nat ->
  exists tr, increment_size (update hf f) t = Done tr /\ good hf tr /\
    items tr ≡ₚ items t /\ size tr = 16 /\ used tr = used t /\
    update_used tr = true /\ strategy tr = strategy t.
Proof.
  intros Hg Hsz Hused Hf. pose proof Hg as (Hlen & _ & Hnd & Hnodup & Hall).
  unfold increment_size. rewrite Hsz. cbv zeta. change (Z.shiftl 8 1) with 16. unfold items.
  cbn [size used update_used internal_list collision_counter strategy].
  destruct (replay_fresh f (items t)
              (mkTable 16 (used t) false (repeat Empty (Z.to_nat 16)) (collision_counter t)
                 (strategy t)))
    as (s' & E' & Hg' & Hp' & Hu' & Hsz' & Huu' & Hst').
  - unfold good, items. cbn [internal_list size]. rewrite get_items_repeat_empty.
    repeat split; first [reflexivity | right; reflexivity | apply repeat_no_dummy | constructor].
  - reflexivity.
  - reflexivity.
  - cbn [used size]. lia.
  - exact Hnodup.
  - exact Hall.
  - intros k _. unfold items. cbn [internal_list]. rewrite get_items_repeat_empty. simpl. tauto.
  - unfold items at 1. cbn [internal_list]. rewrite get_items_repeat_empty. simpl.
    pose proof (get_items_length (internal_list t)) as Hl. unfold items. rewrite Hlen, Hsz in Hl.
    simpl in Hl. lia.
  - exact Hf.
  - unfold items in E'. rewrite E'. eexists. split; [reflexivity |].
    unfold items in Hp'. cbn [internal_list] in Hp'.
    rewrite get_items_repeat_empty, app_nil_r in Hp'. cbn [used strategy] in Hu', Hst'.
    destruct Hg' as (G1 & G2 & G3 & G4 & G5).
    unfold good, items in *. cbn [size used update_used internal_list collision_counter strategy].
    repeat split; auto.
Qed.

End WithHash.
End Placement.

Module SipRange.
Import SipHash.

Definition w64 (x : Z) : Prop := 0 <= x < 2 ^ 64.

Definition state_ok (v : state) : Prop :=
  w64 (v0 v) /\ w64 (v1 v) /\ w64 (v2 v) /\ w64 (v3 v).

Lemma w64_shiftr x : w64 x <-> 0 <= x /\ Z.shiftr x 64 = 0.
Proof.
  unfold w64. rewrite Z.shiftr_div_pow2 by lia. split.
  - intros H. split; [lia |]. apply Z.div_small. exact H.
  - intros [Hx H]. apply Z.div_small_iff in H; [lia |]. apply Z.pow_nonzero; lia.
Qed.

Lemma lxor_w64 a b : w64 a -> w64 b -> w64 (Z.lxor a b).
Proof.
  rewrite !w64_shiftr. intros [Ha Ha'] [Hb Hb']. split.
  - apply Z.lxor_nonneg. tauto.
  - rewrite Z.shiftr_lxor, Ha', Hb'. reflexivity.
Qed.

Lemma lor_w64 a b : w64 a -> w64 b -> w64 (Z.lor a b).
Proof.
  rewrite !w64_shiftr. intros [Ha Ha'] [Hb Hb']. split.
  - apply Z.lor_nonneg. tauto.
  - rewrite Z.shiftr_lor, Ha', Hb'. reflexivity.
Qed.

Lemma fst_split_w64 x : w64 (fst (split_lower_upper_words x)).
Proof.
  unfold w64, split_lower_upper_words, mask64. simpl fst.
  rewrite Z.land_ones by lia. apply Z.mod_pos_bound. lia.
Qed.

Lemma circ_w64 x s : w64 x -> 0 <= s <= 64 -> w64 (circular_shift x s).
Proof.
  intros Hx Hs. unfold circular_shift.
  destruct (split_lower_upper_words (Z.shiftl x s)) as [lower upper] eqn:E.
  assert (Hl : w64 lower) by (change lower with (fst (lower, upper)); rewrite <- E; apply fst_split_w64).
  apply lor_w64; [exact Hl |].
  unfold split_lower_upper_words in E. injection E as _ <-.
  unfold w64 in *. rewrite Z.shiftl_mul_pow2, Z.shiftr_div_pow2 by lia.
  assert (Hp : 0 < 2 ^ s) by (apply Z.pow_pos_nonneg; lia).
  assert (Hle : 2 ^ s <= 2 ^ 64) by (apply Z.pow_le_mono_r; lia).
  split.
  - apply Z.div_pos; lia.
  - apply Z.div_lt_upper_bound; [lia |].
    apply Z.lt_le_trans with (2 ^ 64 * 2 ^ s); [nia | nia].
Qed.

Ltac w64_auto :=
  repeat first [ assumption | apply circ_w64 | apply fst_split_w64 | apply lxor_w64
               | apply lor_w64 | unfold w64; lia ].

Lemma half_sipround_ok s t v :
  0 <= s <= 64 -> 0 <= t <= 64 -> state_ok v -> state_ok (half_sipround s t v).
Proof.
  intros Hs Ht (H0 & H1 & H2 & H3). unfold half_sipround. cbv zeta. simpl.
  refine (conj _ (conj _ (conj _ _))); w64_auto.
Qed.

Lemma double_sipround_ok v : state_ok v -> state_ok (double_sipround v).
Proof.
  intros H. unfold double_sipround.
  repeat (apply half_sipround_ok; [lia | lia |]). exact H.
Qed.

Lemma initialization_ok K : 0 <= K < 2 ^ 128 -> state_ok (initialization K).
Proof.
  intros HK. unfold initialization.
  destruct (split_lower_upper_words K) as [k0 k1] eqn:E.
  assert (H0 : w64 k0) by (change k0 with (fst (k0, k1)); rewrite <- E; apply fst_split_w64).
  assert (H1 : w64 k1).
  { unfold split_lower_upper_words in E. injection E as _ <-. unfold w64.
    rewrite Z.shiftr_div_pow2 by lia. split; [apply Z.div_pos; lia |].
    apply Z.div_lt_upper_bound; [lia |]. change (2 ^ 64 * 2 ^ 64) with (2 ^ 128). lia. }
  simpl. refine (conj _ (conj _ (conj _ _))); w64_auto.
Qed.

Lemma xor_v0_ok word v : w64 word -> state_ok v ->
  state_ok (mkState (Z.lxor (v0 v) word) (v1 v) (v2 v) (v3 v)).
Proof.
  intros Hw (Q0 & Q1 & Q2 & Q3). exact (conj (lxor_w64 _ _ Q0 Hw) (conj Q1 (conj Q2 Q3))).
Qed.

Lemma xor_v3_ok word v : w64 word -> state_ok v ->
  state_ok (mkState (v0 v) (v1 v) (v2 v) (Z.lxor (v3 v) word)).
Proof.
  intros Hw (Q0 & Q1 & Q2 & Q3). exact (conj Q0 (conj Q1 (conj Q2 (lxor_w64 _ _ Q3 Hw)))).
Qed.

Lemma compress_word_ok word v : w64 word -> state_ok v -> state_ok (compress_word word v).
Proof.
  intros Hw Hv. unfold compress_word. cbv zeta.
  apply xor_v0_ok; [exact Hw |]. apply double_sipround_ok. apply xor_v3_ok; assumption.
Qed.

Lemma finalization_ok v : state_ok v -> state_ok (finalization v).
Proof.
  intros Hv. unfold finalization. apply double_sipround_ok, double_sipround_ok.
  destruct Hv as (Q0 & Q1 & Q2 & Q3).
  assert (H255 : w64 255) by (unfold w64; lia).
  exact (conj Q0 (conj Q1 (conj (lxor_w64 _ _ Q2 H255) Q3))).
Qed.

(** The message of a small non-negative integer is one 64-bit word. *)
Lemma small_message i :
  0 <= i <= 8 ->
  exists lower, split_lower_upper_words (add_size_byte i) = (lower, 0) /\
    compression_fuel (add_size_byte i) = 2%nat.
Proof.
  intros Hi. assert (Hc : i = 0 \/ i = 1 \/ i = 2 \/ i = 3 \/ i = 4 \/ i = 5 \/ i = 6 \/ i = 7 \/ i = 8)
    by lia.
  repeat (destruct Hc as [Hc | Hc]; [subst i; eexists; split; reflexivity |]).
  subst i; eexists; split; reflexivity.
Qed.

(** The table hash of a small non-negative integer returns a 64-bit value
    for every secret key of the interpreter ([k1 << 64 | k0]). *)
Lemma entry_hash_small K i :
  0 <= K < 2 ^ 128 -> 0 <= i <= 8 ->
  exists h, HashTable.entry_hash K (PInt i) = Done h /\ 0 <= h < 2 ^ 64.
Proof.
  intros HK Hi. destruct (small_message i Hi) as (lower & Es & Ef).
  unfold HashTable.entry_hash, get_hash. cbv zeta. cbn [message_of].
  rewrite Ef. unfold siphash_main_with, compression_with. cbv zeta. rewrite Es.
  assert (Hlow : w64 lower).
  { change lower with (fst (lower, 0)). rewrite <- Es. apply fst_split_w64. }
  assert (Hv : state_ok (compress_word lower (initialization K)))
    by (apply compress_word_ok; [exact Hlow | apply initialization_ok; exact HK]).
  set (v := compress_word lower (initialization K)) in *.
  change (compression_loop 2 0 v) with (Done v : outcome state).
  eexists. split; [reflexivity |].
  rewrite andb_false_r.
  destruct (finalization_ok v Hv) as (F0 & F1 & F2 & F3).
  change (w64 (Z.lxor (Z.lxor (Z.lxor (Z.lxor 0 (v0 (finalization v))) (v1 (finalization v)))
    (v2 (finalization v))) (v3 (finalization v)))).
  apply lxor_w64; [apply lxor_w64; [apply lxor_w64; [apply lxor_w64 |] |] |];
    first [exact F0 | exact F1 | exact F2 | exact F3 | unfold w64; lia].
Qed.

End SipRange.

Module Squares.
Import HashTable Analysis Placement Scenario.

Lemma bind_done {A B} (a : A) (k : A -> outcome B) : (x ← Done a; k x) = k a.
Proof. reflexivity. Qed.

Lemma run_ops_app hf fuel t xs ys :
  run_ops hf fuel t (xs ++ ys) = (t' ← run_ops hf fuel t xs; run_ops hf fuel t' ys).
Proof.
  revert t; induction xs as [|o xs IH]; intros t; [reflexivity |].
  simpl. destruct (run_op hf fuel t o); simpl; auto.
Qed.

Lemma run_ops_single_update hf fuel t k v :
  run_ops hf fuel t [OpUpdate k v] = update hf fuel t k v.
Proof. simpl. destruct (update hf fuel t k v); reflexivity. Qed.

Lemma square_ops_S n :
  square_ops (S n) =
  square_ops n ++ [OpUpdate (PInt (Z.of_nat n)) (PInt (Z.of_nat n * Z.of_nat n))].
Proof. unfold square_ops. rewrite seq_S, map_app. reflexivity. Qed.

Lemma square_items_S n :
  square_items (S n) =
  square_items n ++ [(PInt (Z.of_nat n), PInt (Z.of_nat n * Z.of_nat n))].
Proof. unfold square_items. rewrite seq_S, map_app. reflexivity. Qed.

Lemma square_items_length n : length (square_items n) = n.
Proof. unfold square_items. rewrite length_map, length_seq. reflexivity. Qed.

Lemma square_fresh n : ~ In (PInt (Z.of_nat n)) (map fst (square_items n)).
Proof.
  unfold square_items. rewrite map_map. simpl. intros Hin.
  apply in_map_iff in Hin as (i & Hi & Hin). apply in_seq in Hin.
  injection Hi as Hi. lia.
Qed.

Lemma fresh_of_perm (its : list (pyobj * pyobj)) n :
  its ≡ₚ square_items n -> ~ In (PInt (Z.of_nat n)) (map fst its).
Proof.
  intros Hp Hin. apply (square_fresh n).
  apply (Permutation_in _ (Permutation_map fst Hp)). exact Hin.
Qed.

Lemma square_hashable K n :
  0 <= K < 2 ^ 128 -> (n <= 8)%nat -> hashable (entry_hash K) (PInt (Z.of_nat n)).
Proof.
  intros HK Hn. split; [discriminate |].
  apply SipRange.entry_hash_small; [exact HK | lia].
Qed.

Lemma init_good hf cr t0 :
  init cr = Done t0 ->
  good hf t0 /\ size t0 = 8 /\ used t0 = 0 /\ update_used t0 = true /\ items t0 = [].
Proof.
  unfold init. destruct (probe_of_string cr); intros H; [| discriminate].
  injection H as <-. unfold good, items. cbn [size used update_used internal_list].
  repeat split; first [reflexivity | left; reflexivity | exact (repeat_no_dummy 8) | constructor].
Qed.

(** The first [n <= 8] updates of the squares run without a resize. *)
Lemma squares_prefix K cr t0 fuel n :
  0 <= K < 2 ^ 128 -> init cr = Done t0 -> (40 <= fuel)%nat -> (n <= 8)%nat ->
  exists tn, run_ops (entry_hash K) fuel t0 (square_ops n) = Done tn /\
    good (entry_hash K) tn /\ size tn = 8 /\ used tn = Z.of_nat n /\
    update_used tn = true /\ items tn ≡ₚ square_items n.
Proof.
  intros HK Hinit Hf. induction n as [|n IH]; intros Hn.
  - destruct (init_good (entry_hash K) cr t0 Hinit) as (Hg & Hs & Hu & Huu & Hi).
    exists t0. split; [reflexivity |]. split; [exact Hg |]. split; [exact Hs |].
    split; [rewrite Hu; reflexivity |]. split; [exact Huu |]. rewrite Hi. reflexivity.
  - destruct IH as (tn & En & Hg & Hs & Hu & Huu & Hp); [lia |].
    destruct (update_fresh_no_resize (entry_hash K) fuel tn (PInt (Z.of_nat n))
                (PInt (Z.of_nat n * Z.of_nat n)))
      as (t' & E' & Hg' & Hp' & Hs' & Hu' & Huu' & _).
    + exact Hg.
    + apply square_hashable; [exact HK | lia].
    + apply fresh_of_perm. exact Hp.
    + rewrite (Permutation_length Hp), square_items_length, Hs. simpl. lia.
    + lia.
    + unfold resize_needed, load_factor. rewrite Hs, Hu. apply Z.ltb_ge. lia.
    + exists t'. rewrite square_ops_S, run_ops_app, En, bind_done, run_ops_single_update.
      split; [exact E' |]. rewrite Huu in Hu'. cbv iota in Hu'.
      split; [exact Hg' |]. split; [congruence |]. split; [rewrite Hu', Hu; lia |].
      split; [congruence |].
      rewrite Hp', Hp, square_items_S. apply Permutation_cons_append.
Qed.

End Squares.

(** C6: on a new table (any probe method, any secret key of the
    interpreter), [update(i, i*i)] for [i = 0 .. 7] never resizes and
    leaves 8 slots with [used = i + 1]; [update(8, 64)] then finds
    [(8 + 1) / 8 > 1], doubles the size to 16 before placing the entry,
    and afterwards the size is 16 and [items()] is exactly the nine
    pairs [(i, i*i)], [i = 0 .. 8]. *)
Theorem squares_scenario (K : Z) (collision_resolution : string) (t0 : HashTable.table)
    (fuel : nat) :
  0 <= K < 2 ^ 128 ->
  HashTable.init collision_resolution = Done t0 ->
  (40 <= fuel)%nat ->
  (forall n, (n < 8)%nat -> exists tn,
      HashTable.run_ops (HashTable.entry_hash K) fuel t0 (Scenario.square_ops n) = Done tn /\
      HashTable.size tn = 8 /\ HashTable.used tn = Z.of_nat n /\
      HashTable.resize_needed tn = false) /\
  exists t8 tr t9,
    HashTable.run_ops (HashTable.entry_hash K) fuel t0 (Scenario.square_ops 8) = Done t8 /\
    HashTable.size t8 = 8 /\ HashTable.used t8 = 8 /\
    HashTable.resize_needed t8 = true /\
    HashTable.maybe_resize (HashTable.update (HashTable.entry_hash K) (pred fuel)) t8 = Done tr /\
    HashTable.size tr = 16 /\
    HashTable.place (HashTable.entry_hash K) (pred fuel) tr (PInt 8) (PInt 64) = Done t9 /\
    HashTable.update (HashTable.entry_hash K) fuel t8 (PInt 8) (PInt 64) = Done t9 /\
    HashTable.run_ops (HashTable.entry_hash K) fuel t0 (Scenario.square_ops 9) = Done t9 /\
    HashTable.size t9 = 16 /\
    HashTable.items t9 ≡ₚ Scenario.square_items 9.
Proof.
  intros HK Hinit Hf. split.
  - intros n Hn.
    destruct (Squares.squares_prefix K collision_resolution t0 fuel n HK Hinit Hf ltac:(lia))
      as (tn & En & _ & Hs & Hu & _ & _).
    exists tn. split; [exact En |]. split; [exact Hs |]. split; [exact Hu |].
    unfold HashTable.resize_needed, HashTable.load_factor. rewrite Hs, Hu.
    apply Z.ltb_ge. lia.
  - destruct (Squares.squares_prefix K collision_resolution t0 fuel 8 HK Hinit Hf ltac:(lia))
      as (t8 & E8 & Hg8 & Hs8 & Hu8 & Huu8 & Hp8).
    destruct fuel as [|f]; [lia |]. simpl pred.
    assert (Hr : HashTable.resize_needed t8 = true).
    { unfold HashTable.resize_needed, HashTable.load_factor. rewrite Hs8, Hu8. reflexivity. }
    destruct (Placement.increment_size_fresh (HashTable.entry_hash K) f t8 Hg8 Hs8
                ltac:(rewrite Hu8; simpl; lia) ltac:(lia))
      as (tr & Er & Hgr & Hpr & Hsr & _ & Huur & _).
    destruct (Placement.place_fresh (HashTable.entry_hash K) f tr (PInt (Z.of_nat 8))
                (PInt (Z.of_nat 8 * Z.of_nat 8)) Hgr)
      as (t9 & E9 & _ & Hp9 & Hs9 & _ & _ & _).
    + apply Squares.square_hashable; [exact HK | lia].
    + apply Squares.fresh_of_perm. rewrite Hpr. exact Hp8.
    + rewrite (Permutation_length Hpr), (Permutation_length Hp8), Squares.square_items_length, Hsr.
      simpl. lia.
    + lia.
    + assert (Hm : HashTable.maybe_resize (HashTable.update (HashTable.entry_hash K) f) t8 = Done tr).
      { unfold HashTable.maybe_resize. rewrite Hr. exact Er. }
      assert (Hupd : HashTable.update (HashTable.entry_hash K) (S f) t8 (PInt 8) (PInt 64) = Done t9).
      { cbn [HashTable.update]. rewrite Hm, Squares.bind_done. exact E9. }
      exists t8, tr, t9.
      split; [exact E8 |]. split; [exact Hs8 |]. split; [exact Hu8 |]. split; [exact Hr |].
      split; [exact Hm |]. split; [exact Hsr |]. split; [exact E9 |]. split; [exact Hupd |].
      split.
      { rewrite Squares.square_ops_S, Squares.run_ops_app, E8, Squares.bind_done,
          Squares.run_ops_single_update. exact Hupd. }
      split; [rewrite Hs9; exact Hsr |].
      rewrite Hp9, Hpr, Hp8, (Squares.square_items_S 8). apply Permutation_cons_append.
Qed.

(** ** Further lemmas on the code *)

Module SipExtra.
Import SipHash SipRange.

Lemma testbit_w64_high x n : 0 <= x < 2 ^ 64 -> 64 <= n -> Z.testbit x n = false.
Proof.
  intros Hx Hn. rewrite <- (Z.mod_small x (2 ^ 64)) by lia.
  apply Z.mod_pow2_bits_high. lia.
Qed.

(** Bit [n] of [circular_shift x s] is bit [(n - s) mod 64] of [x]. *)
Lemma circ_bits x s n :
  0 <= x < 2 ^ 64 -> 0 <= s <= 64 -> 0 <= n ->
  Z.testbit (circular_shift x s) n =
  if n <? 64 then (if n <? s then Z.testbit x (n + 64 - s) else Z.testbit x (n - s))
  else false.
Proof.
  intros Hx Hs Hn. unfold circular_shift, split_lower_upper_words, mask64. cbv beta iota.
  rewrite Z.lor_spec, Z.land_spec, Z.shiftr_spec, Z.testbit_ones_nonneg by lia.
  rewrite !Z.shiftl_spec by lia.
  destruct (Z.ltb_spec n 64); destruct (Z.ltb_spec n s).
  - rewrite (Z.testbit_neg_r x (n - s)) by lia. replace (n + 64 - s) with (n + 64 - s) by lia.
    reflexivity.
  - rewrite (testbit_w64_high x (n + 64 - s)) by lia. rewrite Bool.andb_true_r, Bool.orb_false_r.
    reflexivity.
  - lia.
  - rewrite (testbit_w64_high x (n + 64 - s)) by lia. rewrite Bool.andb_false_r. reflexivity.
Qed.

Lemma str2int_from_shift s i :
  0 <= i -> str2int_from i s = Z.shiftl (str2int s) (8 * i).
Proof.
  unfold str2int. revert i; induction s as [|c s IH]; intros i Hi; simpl.
  - rewrite Z.shiftl_0_l. reflexivity.
  - rewrite (IH (i + 1)), (IH (0 + 1)) by lia.
    rewrite Z.shiftl_0_l, Z.shiftl_0_r, (Z.shiftl_mul_pow2 i 3) by lia.
    rewrite Z.shiftl_lor, Z.shiftl_shiftl by lia.
    f_equal; [f_equal; lia | f_equal; lia].
Qed.

Lemma str2int_cons c s :
  str2int (String c s) = Z.of_nat (nat_of_ascii c) + 256 * str2int s.
Proof.
  assert (Hc : 0 <= Z.of_nat (nat_of_ascii c) < 2 ^ 8).
  { pose proof (nat_ascii_bounded c). change (2 ^ 8) with (Z.of_nat 256). lia. }
  unfold str2int at 1. cbn [str2int_from].
  rewrite (str2int_from_shift s (0 + 1)) by lia. rewrite Z.shiftl_0_l, Z.shiftl_0_r.
  replace (8 * (0 + 1)) with 8 by lia.
  rewrite <- Z.lxor_lor by (apply SipHashFacts.land_low_shiftl; lia).
  rewrite <- Z.add_nocarry_lxor by (apply SipHashFacts.land_low_shiftl; lia).
  rewrite Z.shiftl_mul_pow2 by lia. lia.
Qed.

Lemma str2int_nonneg s : 0 <= str2int s.
Proof.
  induction s as [|c s IH]; [reflexivity |]. rewrite str2int_cons. lia.
Qed.

Lemma str2int_trailing_nul s : str2int (s ++ String "000" EmptyString) = str2int s.
Proof.
  induction s as [|c s IH]; [reflexivity |].
  simpl append. rewrite !str2int_cons, IH. reflexivity.
Qed.

Lemma lxor_ones64 v : 0 <= v < 2 ^ 64 -> Z.lxor v (Z.ones 64) = Z.ones 64 - v.
Proof.
  intros Hv.
  assert (Hl : Z.land (Z.lxor v (Z.ones 64)) v = 0).
  { apply Z.bits_inj'. intros n Hn. rewrite Z.land_spec, Z.lxor_spec, Z.bits_0.
    destruct (Z.ltb_spec n 64).
    - rewrite Z.testbit_ones_nonneg by lia. destruct (Z.ltb_spec n 64); [| lia].
      destruct (Z.testbit v n); reflexivity.
    - rewrite (testbit_w64_high v n) by lia. apply Bool.andb_false_r. }
  pose proof (Z.add_nocarry_lxor _ _ Hl) as E.
  assert (Hx : Z.lxor (Z.lxor v (Z.ones 64)) v = Z.ones 64)
    by (rewrite Z.lxor_comm, <- Z.lxor_assoc, Z.lxor_nilpotent, Z.lxor_0_l; reflexivity).
  lia.
Qed.

Lemma add_size_byte_nonneg m : 0 <= m -> 0 <= add_size_byte m.
Proof.
  intros Hm. unfold add_size_byte. cbv zeta. apply Z.lor_nonneg. split; [exact Hm |].
  apply Z.shiftl_nonneg. apply Z.land_nonneg. right. lia.
Qed.

(** The [while upper:] loop returns when [upper] has at most [n] words. *)
Lemma compression_loop_ok n u v :
  state_ok v -> 0 <= u < 2 ^ (64 * Z.of_nat n) ->
  exists v', compression_loop (S n) u v = Done v' /\ state_ok v'.
Proof.
  revert u v; induction n as [|n IH]; intros u v Hv Hu.
  - assert (u = 0) by (simpl in Hu; lia). subst u. exists v. split; [reflexivity | exact Hv].
  - cbn [compression_loop]. destruct (Z.eqb_spec u 0) as [->|Hne].
    + exists v. split; [reflexivity | exact Hv].
    + destruct (split_lower_upper_words u) as [lower upper] eqn:E.
      assert (Hl : w64 lower) by (change lower with (fst (lower, upper)); rewrite <- E; apply fst_split_w64).
      assert (Hup : 0 <= upper < 2 ^ (64 * Z.of_nat n)).
      { unfold split_lower_upper_words in E. injection E as _ <-.
        rewrite Z.shiftr_div_pow2 by lia. split; [apply Z.div_pos; lia |].
        apply Z.div_lt_upper_bound; [lia |]. rewrite <- Z.pow_add_r by lia.
        replace (64 + 64 * Z.of_nat n) with (64 * Z.of_nat (S n)) by lia. lia. }
      apply IH; [apply compress_word_ok; assumption | exact Hup].
Qed.

Lemma compression_ok m v :
  0 <= m -> state_ok v ->
  exists v', compression_with (compression_fuel (add_size_byte m)) m v = Done v' /\ state_ok v'.
Proof.
  intros Hm Hv. unfold compression_with, compression_fuel. cbv zeta.
  pose proof (add_size_byte_nonneg m Hm) as HU.
  set (U := add_size_byte m) in *.
  rewrite (Z.abs_eq U HU).
  set (q := Z.log2 U / 64).
  assert (Hq : 0 <= q) by (apply Z.div_pos; [apply Z.log2_nonneg | lia]).
  assert (HUb : U < 2 ^ (64 * (q + 1))).
  { destruct (Z.eq_dec U 0) as [E0|Hne]; [rewrite E0; apply Z.pow_pos_nonneg; lia |].
    destruct (Z.log2_spec U ltac:(lia)) as [_ Hlt].
    apply Z.lt_le_trans with (2 ^ Z.succ (Z.log2 U)); [exact Hlt |].
    apply Z.pow_le_mono_r; [lia |].
    pose proof (Z.div_mod (Z.log2 U) 64 ltac:(lia)) as Hd.
    pose proof (Z.mod_pos_bound (Z.log2 U) 64 ltac:(lia)). unfold q. lia. }
  destruct (split_lower_upper_words U) as [lower upper] eqn:E.
  assert (Hl : w64 lower) by (change lower with (fst (lower, upper)); rewrite <- E; apply fst_split_w64).
  apply compression_loop_ok; [apply compress_word_ok; assumption |].
  unfold split_lower_upper_words in E. injection E as _ <-.
  rewrite Z.shiftr_div_pow2 by lia. split; [apply Z.div_pos; lia |].
  apply Z.div_lt_upper_bound; [lia |].
  rewrite Nat2Z.inj_succ, Z2Nat.id by exact Hq.
  apply Z.lt_le_trans with (2 ^ (64 * (q + 1))); [exact HUb |].
  assert (0 < 2 ^ 64) by lia.
  assert (0 < 2 ^ (64 * Z.succ q)) by (apply Z.pow_pos_nonneg; lia).
  replace (64 * (q + 1)) with (64 * Z.succ q) by lia. nia.
Qed.

Lemma split_round_trip x :
  fst (split_lower_upper_words x) + 2 ^ 64 * snd (split_lower_upper_words x) = x /\
  0 <= fst (split_lower_upper_words x) < 2 ^ 64.
Proof.
  unfold split_lower_upper_words, mask64. simpl fst; simpl snd.
  rewrite Z.land_ones, Z.shiftr_div_pow2 by lia.
  pose proof (Z.div_mod x (2 ^ 64) ltac:(lia)). pose proof (Z.mod_pos_bound x (2 ^ 64) ltac:(lia)).
  lia.
Qed.

Lemma circ_circ x s :
  0 <= x < 2 ^ 64 -> 0 <= s <= 64 -> circular_shift (circular_shift x s) (64 - s) = x.
Proof.
  intros Hx Hs. pose proof (circ_w64 x s Hx Hs) as Hy.
  apply Z.bits_inj'. intros n Hn.
  rewrite (circ_bits _ (64 - s) n Hy) by lia.
  destruct (Z.ltb_spec n 64) as [Hn64|Hn64].
  - destruct (Z.ltb_spec n (64 - s)).
    + rewrite (circ_bits x s (n + 64 - (64 - s))) by lia.
      destruct (Z.ltb_spec (n + 64 - (64 - s)) 64); [| lia].
      destruct (Z.ltb_spec (n + 64 - (64 - s)) s); [lia |]. f_equal. lia.
    + rewrite (circ_bits x s (n - (64 - s))) by lia.
      destruct (Z.ltb_spec (n - (64 - s)) 64); [| lia].
      destruct (Z.ltb_spec (n - (64 - s)) s); [| lia]. f_equal. lia.
  - symmetry. apply testbit_w64_high; lia.
Qed.

Lemma str2int_bound s : 0 <= str2int s < 2 ^ (8 * Z.of_nat (String.length s)).
Proof.
  induction s as [|c s IH]; [change (str2int EmptyString) with 0; simpl; lia |].
  rewrite str2int_cons. cbn [String.length]. rewrite Nat2Z.inj_succ.
  replace (8 * Z.succ (Z.of_nat (String.length s))) with (8 + 8 * Z.of_nat (String.length s)) by lia.
  rewrite Z.pow_add_r by lia.
  pose proof (nat_ascii_bounded c). change (2 ^ 8) with 256. lia.
Qed.

Lemma str2int_byte s i c :
  String.get i s = Some c ->
  Z.shiftr (str2int s) (8 * Z.of_nat i) mod 256 = Z.of_nat (nat_of_ascii c).
Proof.
  revert i; induction s as [|c' s IH]; intros i Hg; [discriminate |].
  pose proof (nat_ascii_bounded c'). pose proof (str2int_nonneg s).
  rewrite str2int_cons. destruct i as [|i]; cbn [String.get] in Hg.
  - injection Hg as <-. rewrite Z.shiftr_0_r.
    rewrite Z.mul_comm, Z.mod_add by lia. apply Z.mod_small. lia.
  - rewrite <- (IH i Hg). rewrite !Z.shiftr_div_pow2 by lia.
    f_equal. rewrite Nat2Z.inj_succ.
    replace (8 * Z.succ (Z.of_nat i)) with (8 + 8 * Z.of_nat i) by lia.
    rewrite Z.pow_add_r, <- Z.div_div by lia. f_equal. change (2 ^ 8) with 256.
    rewrite Z.mul_comm, Z.div_add by lia. rewrite Z.div_small by lia. lia.
Qed.

Lemma negate_w64 v : 0 <= v < 2 ^ 64 -> negate v = v - 2 ^ 64.
Proof.
  intros Hv. unfold negate, mask64. rewrite lxor_ones64 by exact Hv.
  rewrite Z.ones_equiv. lia.
Qed.

Lemma siphash_main_range K b m :
  0 <= K < 2 ^ 128 -> 0 <= m ->
  exists h, siphash_main_with (compression_fuel (add_size_byte m)) K true m = Done h /\
    0 <= h < 2 ^ 64 /\
    siphash_main_with (compression_fuel (add_size_byte m)) K b m =
      Done (if Z.testbit h 63 && negb b then h - 2 ^ 64 else h).
Proof.
  intros HK Hm. unfold siphash_main_with.
  destruct (compression_ok m (initialization K) Hm (initialization_ok K HK)) as (v & Ev & Hv).
  rewrite Ev. unfold mbind, outcome_bind.
  destruct (finalization_ok v Hv) as (F0 & F1 & F2 & F3).
  set (f := finalization v) in *.
  assert (Hh : w64 (Z.lxor (Z.lxor (Z.lxor (Z.lxor 0 (v0 f)) (v1 f)) (v2 f)) (v3 f))).
  { apply lxor_w64; [apply lxor_w64; [apply lxor_w64; [apply lxor_w64 |] |] |];
      first [exact F0 | exact F1 | exact F2 | exact F3 | unfold w64; lia]. }
  set (h := Z.lxor (Z.lxor (Z.lxor (Z.lxor 0 (v0 f)) (v1 f)) (v2 f)) (v3 f)) in *.
  exists h. rewrite andb_false_r. split; [reflexivity |]. split; [exact Hh |].
  destruct (Z.testbit h 63 && negb b); [| reflexivity].
  rewrite negate_w64 by exact Hh. reflexivity.
Qed.




End SipExtra.

Module CompressFacts.
Import HashTable.

Lemma pow2_shiftr b x : 0 <= b -> (0 <= x < 2 ^ b <-> 0 <= x /\ Z.shiftr x b = 0).
Proof.
  intros Hb. rewrite Z.shiftr_div_pow2 by lia.
  assert (Hp : 0 < 2 ^ b) by (apply Z.pow_pos_nonneg; lia). split.
  - intros H. split; [lia |]. apply Z.div_small. exact H.
  - intros [Hx H]. apply Z.div_small_iff in H; lia.
Qed.

Lemma lxor_pow2 b x y : 0 <= b -> 0 <= x < 2 ^ b -> 0 <= y < 2 ^ b -> 0 <= Z.lxor x y < 2 ^ b.
Proof.
  intros Hb. rewrite !(pow2_shiftr b) by exact Hb. intros [Hx Hx'] [Hy Hy']. split.
  - apply Z.lxor_nonneg. tauto.
  - rewrite Z.shiftr_lxor, Hx', Hy'. reflexivity.
Qed.

Lemma lower_ones bits : 0 <= bits -> Z.shiftl 1 bits - 1 = Z.ones bits.
Proof. intros Hb. rewrite Z.shiftl_1_l, Z.ones_equiv. lia. Qed.

Lemma compress_loop_ok bits n h acc :
  0 < bits -> 0 <= h < 2 ^ (bits * Z.of_nat n) -> 0 <= acc < 2 ^ bits ->
  exists r, compress_loop (S n) bits (Z.shiftl 1 bits - 1) h acc = Done r /\ 0 <= r < 2 ^ bits.
Proof.
  intros Hb. rewrite lower_ones by lia.
  revert h acc; induction n as [|n IH]; intros h acc Hh Hacc.
  - assert (h = 0) by (rewrite Z.mul_0_r in Hh; simpl in Hh; lia). subst h.
    exists acc. split; [reflexivity | exact Hacc].
  - cbn [compress_loop]. destruct (Z.eqb_spec h 0) as [->|Hne].
    + exists acc. split; [reflexivity | exact Hacc].
    + apply IH.
      * rewrite Z.shiftr_div_pow2 by lia.
        assert (0 < 2 ^ bits) by (apply Z.pow_pos_nonneg; lia).
        split; [apply Z.div_pos; lia |].
        apply Z.div_lt_upper_bound; [lia |]. rewrite <- Z.pow_add_r by lia.
        replace (bits + bits * Z.of_nat n) with (bits * Z.of_nat (S n)) by lia. lia.
      * apply lxor_pow2; [lia | exact Hacc |].
        rewrite Z.land_ones by lia. apply Z.mod_pos_bound. apply Z.pow_pos_nonneg; lia.
Qed.

Lemma compress_hash_bound bits h :
  0 < bits -> 0 <= h -> exists r, compress_hash bits h = Done r /\ 0 <= r < 2 ^ bits.
Proof.
  intros Hb Hh. unfold compress_hash, compress_hash_with, compress_fuel.
  destruct (Z.ltb_spec bits 0); [lia |]. cbv zeta.
  rewrite (Z.abs_eq h Hh).
  set (q := Z.log2 h / bits).
  assert (Hq : 0 <= q) by (apply Z.div_pos; [apply Z.log2_nonneg | lia]).
  apply compress_loop_ok; [exact Hb | | split; [lia | apply Z.pow_pos_nonneg; lia]].
  split; [exact Hh |].
  rewrite Nat2Z.inj_succ, Z2Nat.id by exact Hq.
  destruct (Z.eq_dec h 0) as [E0|Hne]; [rewrite E0; apply Z.pow_pos_nonneg; nia |].
  destruct (Z.log2_spec h ltac:(lia)) as [_ Hlt].
  apply Z.lt_le_trans with (2 ^ Z.succ (Z.log2 h)); [exact Hlt |].
  apply Z.pow_le_mono_r; [lia |].
  pose proof (Z.div_mod (Z.log2 h) bits ltac:(lia)) as Hd.
  pose proof (Z.mod_pos_bound (Z.log2 h) bits ltac:(lia)). unfold q. nia.
Qed.

Lemma compress_hash_small bits h :
  0 < bits -> 0 <= h < 2 ^ bits -> compress_hash bits h = Done h.
Proof.
  intros Hb Hh. unfold compress_hash, compress_hash_with, compress_fuel.
  destruct (Z.ltb_spec bits 0); [lia |]. cbv zeta. rewrite lower_ones by lia.
  cbn [compress_loop]. destruct (Z.eqb_spec h 0) as [->|Hne]; [reflexivity |].
  assert (Hs : Z.shiftr h bits = 0) by (apply (pow2_shiftr bits h); lia).
  rewrite Hs. cbn [compress_loop]. rewrite Z.eqb_refl.
  rewrite Z.lxor_0_l, Z.land_ones, Z.mod_small by lia. reflexivity.
Qed.

Lemma compress_loop_stuck fuel bits lower h acc :
  0 <= bits -> (h < 0 \/ (bits = 0 /\ h <> 0)) -> compress_loop fuel bits lower h acc = Stuck.
Proof.
  intros Hb. revert h acc; induction fuel as [|f IH]; intros h acc Hh; [reflexivity |].
  cbn [compress_loop]. destruct (Z.eqb_spec h 0) as [->|Hne]; [lia |].
  apply IH. destruct Hh as [Hn | [-> Hz]].
  - left. apply Z.shiftr_neg. exact Hn.
  - right. rewrite Z.shiftr_0_r. split; [reflexivity | exact Hz].
Qed.

End CompressFacts.

Module TableExtra.
Import HashTable TableFacts LookupFacts Layout.

Lemma lookup_loop_count fuel p sz (l : list entry) skip key h0 i h j c :
  lookup_loop fuel p sz l skip key h0 i h = Done (j, c) -> 0 <= c.
Proof.
  revert i h j c; induction fuel as [|f IH]; intros i h j c H; simpl in H; [discriminate |].
  destruct (l !! Z.to_nat i) as [e|]; [| discriminate].
  destruct (stops skip key h0 e).
  - injection H as _ <-. lia.
  - destruct (get_new_index p sz i h) as [i' h'].
    inv_bind H. destruct a as [j' c']. injection H as _ <-. apply IH in Ha. lia.
Qed.




(** The replay loop, knowing which pair it re-inserts. *)
Lemma replay_invariant_in (P : table -> Prop) (upd : table -> pyobj -> pyobj -> outcome table)
    (its : list (pyobj * pyobj)) (t0 t3 : table) :
  (forall s k v s', In (k, v) its -> P s -> upd s k v = Done s' -> P s') ->
  P t0 ->
  foldl (fun acc kv => s ← acc; upd s (fst kv) (snd kv)) (Done t0) its = Done t3 ->
  P t3.
Proof.
  revert t0; induction its as [|[k v] its IH]; intros t0 Hupd H0 H; simpl in H.
  - congruence.
  - destruct (upd t0 k v) as [s'| |] eqn:E.
    + eapply IH; [| | exact H].
      * intros s k' v' s'' Hin. apply Hupd. right. exact Hin.
      * eapply Hupd; [left; reflexivity | exact H0 | exact E].
    + exfalso. eapply replay_fold_not_done; [| exact H]. intros s; discriminate.
    + exfalso. eapply replay_fold_not_done; [| exact H]. intros s; discriminate.
Qed.


Lemma get_items_set_dummy (l : list entry) i k v h :
  l !! i = Some (Filled k v h) ->
  exists l1 l2, get_items l = l1 ++ (k, v) :: l2 /\ get_items (<[i := Dummy]> l) = l1 ++ l2.
Proof.
  revert i; induction l as [|e l IH]; intros i H; [discriminate |].
  destruct i as [|i]; simpl in H.
  - injection H as ->. exists [], (get_items l). split; reflexivity.
  - destruct (IH i H) as (l1 & l2 & E1 & E2).
    destruct e as [|k' v' h'|]; simpl; rewrite E1, E2.
    + exists l1, l2; split; reflexivity.
    + exists ((k', v') :: l1), l2; split; reflexivity.
    + exists l1, l2; split; reflexivity.
Qed.

Lemma get_items_set_filled (l : list entry) i e k v h :
  l !! i = Some e ->
  In (k, v) (get_items (<[i := Filled k v h]> l)) /\
  forall p, In p (get_items (<[i := Filled k v h]> l)) -> p = (k, v) \/ In p (get_items l).
Proof.
  revert i; induction l as [|e' l IH]; intros i H; [discriminate |].
  destruct i as [|i]; simpl in H.
  - injection H as ->. simpl. split; [left; reflexivity |].
    intros p [Hp | Hp]; [left; symmetry; exact Hp |].
    right. destruct e; simpl; auto.
  - destruct (IH i H) as [Hin Hsub].
    destruct e' as [|k' v' h'|]; simpl.
    + split; [exact Hin | exact Hsub].
    + split; [right; exact Hin |].
      intros p [Hp | Hp]; [right; left; exact Hp |].
      destruct (Hsub p Hp) as [-> | Hp']; [left; reflexivity | right; right; exact Hp'].
    + split; [exact Hin | exact Hsub].
Qed.


Section WithHash.
Variable hf : pyobj -> outcome Z.

Lemma lookup_key_count fuel t key skip j c :
  lookup_key hf fuel t key skip = Done (j, c) -> 0 <= c.
Proof.
  unfold lookup_key. intros H. inv_bind H. destruct a as [h|]; [| discriminate].
  eapply lookup_loop_count; exact H.
Qed.

Lemma place_facts fuel t k v t' :
  place hf fuel t k v = Done t' ->
  exists j c h e,
    entry_hash_value hf k = Done (Some h) /\
    lookup_key hf fuel t k false = Done (j, c) /\
    internal_list t !! Z.to_nat j = Some e /\
    t' = mkTable (size t) (if negb (is_dummy e) && update_used t then used t + 1 else used t)
           (update_used t) (<[Z.to_nat j := Filled k v h]> (internal_list t))
           (collision_counter t + c) (strategy t).
Proof.
  unfold place. intros H. inv_bind H. destruct a as [j c]. simpl in H.
  destruct (internal_list t !! Z.to_nat j) as [e|] eqn:Ej; [| discriminate].
  pose proof Ha as Hl. unfold lookup_key in Ha. inv_bind Ha. destruct a as [h|]; [| discriminate].
  inv_bind H. unfold new_entry in Ha1. rewrite Ha0 in Ha1. simpl in Ha1.
  injection Ha1 as <-. injection H as <-.
  exists j, c, h, e. split; [exact Ha0 |]. split; [exact Hl |]. split; [exact Ej |].
  reflexivity.
Qed.

Lemma update_key fuel t k v t' : update hf fuel t k v = Done t' -> k <> PNone.
Proof.
  intros H. destruct fuel as [|f]; [discriminate |]. simpl in H. inv_bind H.
  apply place_facts in H as (j & c & h & e & Eh & _). intros ->. discriminate Eh.
Qed.


(** The pairs after [update(k, v)]: [(k, v)] and pairs held before. *)
Lemma update_items fuel : forall t k v t',
  update hf fuel t k v = Done t' ->
  In (k, v) (items t') /\ forall p, In p (items t') -> p = (k, v) \/ In p (items t).
Proof.
  induction fuel as [|f IH]; intros t k v t' H; [discriminate |].
  simpl in H. inv_bind H. rename a into t1.
  assert (H1 : forall p, In p (items t1) -> In p (items t)).
  { unfold maybe_resize in Ha. destruct (resize_needed t).
    - unfold increment_size in Ha. inv_bind Ha. injection Ha as <-.
      set (P := fun s : table => forall p, In p (items s) -> In p (items t)).
      assert (HP : P a).
      { eapply (replay_invariant_in P); [| | exact Ha0].
        - intros s k' v' s' Hin Hs Hup p Hp.
          destruct (proj2 (IH s k' v' s' Hup) p Hp) as [-> | Hp']; [exact Hin | apply Hs, Hp'].
        - unfold P, items; simpl. rewrite Placement.get_items_repeat_empty. intros p []. }
      exact HP.
    - injection Ha as <-. auto. }
  apply place_facts in H as (j & c & h & e & _ & _ & Ej & ->).
  unfold items at 1 2; simpl.
  destruct (get_items_set_filled _ _ _ k v h Ej) as [Hin Hsub].
  split; [exact Hin |]. intros p Hp.
  destruct (Hsub p Hp) as [-> | Hp']; [left; reflexivity | right; apply H1, Hp'].
Qed.

Lemma get_facts fuel t k r t' :
  get hf fuel t k = Done (r, t') ->
  internal_list t' = internal_list t /\ size t' = size t /\ used t' = used t /\
  update_used t' = update_used t /\ strategy t' = strategy t /\
  collision_counter t <= collision_counter t' /\
  (r = PNone \/ In (k, r) (items t)).
Proof.
  unfold get. intros H. inv_bind H. destruct a as [j c]. simpl in H.
  pose proof (lookup_key_count _ _ _ _ _ _ Ha) as Hc.
  unfold lookup_key in Ha. inv_bind Ha. destruct a as [h|]; [| discriminate].
  destruct (loop_result_stops _ _ _ _ _ _ _ _ _ _ _ Ha) as (e & Ej & Hs).
  rewrite Ej in H.
  assert (Hr : r = PNone \/ In (k, r) (items t)).
  { destruct e as [|k' v' h'|]; injection H as <- _; [left; reflexivity | | left; reflexivity].
    right. simpl in Hs. destruct (Z.eqb h h'); simpl in Hs; [| discriminate].
    apply py_eq_true in Hs. subst k'. eapply get_items_In; exact Ej. }
  destruct e as [|k' v' h'|]; injection H as _ <-; simpl;
    (split; [reflexivity |]); (split; [reflexivity |]); (split; [reflexivity |]);
    (split; [reflexivity |]); (split; [reflexivity |]); (split; [lia | exact Hr]).
Qed.

Lemma remove_facts fuel t k t' :
  remove hf fuel t k = Done t' ->
  size t' = size t /\ used t' = used t /\ update_used t' = update_used t /\
  strategy t' = strategy t /\
  length (internal_list t') = length (internal_list t) /\
  collision_counter t <= collision_counter t' /\
  (internal_list t' = internal_list t \/
   exists l1 v l2, items t = l1 ++ (k, v) :: l2 /\ items t' = l1 ++ l2).
Proof.
  unfold remove. intros H. inv_bind H. destruct a as [j c]. simpl in H.
  pose proof (lookup_key_count _ _ _ _ _ _ Ha) as Hc.
  unfold lookup_key in Ha. inv_bind Ha. destruct a as [h|]; [| discriminate].
  destruct (loop_result_stops _ _ _ _ _ _ _ _ _ _ _ Ha) as (e & Ej & Hs).
  rewrite Ej in H.
  destruct e as [|k' v' h'|]; injection H as <-; simpl.
  - repeat (split; [reflexivity |]). split; [lia | left; reflexivity].
  - repeat (split; [reflexivity |]). split; [apply length_insert |]. split; [lia |].
    right. simpl in Hs. destruct (Z.eqb h h'); simpl in Hs; [| discriminate].
    apply py_eq_true in Hs. subst k'.
    destruct (get_items_set_dummy _ _ _ _ _ Ej) as (l1 & l2 & E1 & E2).
    exists l1, v', l2. unfold items; simpl. split; assumption.
  - repeat (split; [reflexivity |]). split; [lia | left; reflexivity].
Qed.

(** The layout is kept by [update], also across its resizes. *)
Lemma update_shape fuel : forall t k v t',
  shape t -> update hf fuel t k v = Done t' -> shape t'.
Proof.
  induction fuel as [|f IH]; intros t k v t' Hsh H; [discriminate |].
  simpl in H. inv_bind H. rename a into t1.
  assert (H1 : shape t1).
  { unfold maybe_resize in Ha. destruct (resize_needed t).
    - unfold increment_size in Ha. inv_bind Ha. injection Ha as <-.
      assert (HP : shape a).
      { eapply (replay_invariant shape); [| | exact Ha0].
        - intros s k' v' s' Hs Hup. eapply IH; eauto.
        - destruct Hsh as ((n & Hn & Hs) & _). split; simpl.
          + exists (n + 1). split; [lia |].
            rewrite Z.shiftl_mul_pow2, Hs, Z.pow_add_r by lia. lia.
          + apply repeat_length. }
      destruct HP as (Hs & Hl). split; simpl; assumption.
    - injection Ha as <-. exact Hsh. }
  apply place_facts in H as (j & c & h & e & _ & _ & Ej & ->).
  destruct H1 as (Hs & Hl). split; simpl; [exact Hs |].
  rewrite length_insert. exact Hl.
Qed.

Lemma update_keys_ok fuel t k v t' :
  keys_ok t -> update hf fuel t k v = Done t' -> keys_ok t'.
Proof.
  intros Hk H p Hp. pose proof (update_key _ _ _ _ _ H) as Hkey.
  destruct (proj2 (update_items _ _ _ _ _ H) p Hp) as [-> | Hp']; [exact Hkey | exact (Hk p Hp')].
Qed.

Lemma run_op_layout fuel t o t' :
  shape t -> keys_ok t -> run_op hf fuel t o = Done t' -> shape t' /\ keys_ok t'.
Proof.
  intros Hsh Hk H. destruct o as [k|k v|k]; simpl in H.
  - inv_bind H. injection H as <-. destruct a as [r t1].
    apply get_facts in Ha as (E1 & E2 & _).
    unfold shape, keys_ok, items. simpl. rewrite E1, E2. split; [exact Hsh | exact Hk].
  - split; [eapply update_shape | eapply update_keys_ok]; eauto.
  - apply remove_facts in H as (E1 & _ & _ & _ & E5 & _ & Hi). split.
    + destruct Hsh as (Hs & Hl). split; [rewrite E1; exact Hs | rewrite E5, E1; exact Hl].
    + intros p Hp. destruct Hi as [Hi | (l1 & v & l2 & E6 & E7)].
      * apply Hk. unfold items. rewrite <- Hi. exact Hp.
      * apply Hk. rewrite E6. rewrite E7 in Hp. apply in_app_or in Hp.
        apply in_or_app. destruct Hp as [Hp | Hp]; [left; exact Hp | right; right; exact Hp].
Qed.

Lemma reaches_layout t t' :
  shape t -> keys_ok t -> reaches hf t t' -> shape t' /\ keys_ok t'.
Proof.
  intros Hs Hk Hr. induction Hr as [t|fuel t o t1 t2 Hop Hr IH]; [auto |].
  apply run_op_layout in Hop as [Hs1 Hk1]; auto.
Qed.

Lemma init_layout cr t : init cr = Done t -> shape t /\ keys_ok t.
Proof.
  unfold init. destruct (probe_of_string cr) as [pr|]; [| discriminate].
  intros H; injection H as <-. split.
  - split; [exists 0; split; [lia | reflexivity] | reflexivity].
  - intros q [].
Qed.

Lemma reachable_layout t : reachable hf t -> shape t /\ keys_ok t.
Proof.
  intros (cr & t0 & Hi & Hr). apply init_layout in Hi as [Hs Hk].
  eapply reaches_layout; eauto.
Qed.

Hypothesis hf_total : forall k, hf k <> Raised.







End WithHash.
End TableExtra.

Module StringFacts.

Lemma get_none_length (s : string) (i : nat) :
  String.get i s = None -> (String.length s <= i)%nat.
Proof.
  revert i; induction s as [|c s IH]; intros i H; simpl; [lia |].
  destruct i as [|i]; simpl in H; [discriminate |]. apply IH in H. lia.
Qed.

End StringFacts.

Module ProbeFacts.
Import HashTable Analysis.

Lemma simple_iter n i h m :
  0 <= n -> 0 <= i < 8 * 2 ^ n ->
  probe_iter Simple (8 * 2 ^ n) m (i, h) = ((i + Z.of_nat m) mod (8 * 2 ^ n), h).
Proof.
  intros Hn. assert (Hp : 0 < 8 * 2 ^ n) by (assert (0 < 2 ^ n) by (apply Z.pow_pos_nonneg; lia); lia).
  revert i; induction m as [|m IH]; intros i Hi; cbn [probe_iter].
  - rewrite Z.add_0_r, Z.mod_small by lia. reflexivity.
  - cbn [fst snd get_new_index].
    assert (E : Z.land (i + 1) (8 * 2 ^ n - 1) = (i + 1) mod (8 * 2 ^ n)).
    { replace (8 * 2 ^ n) with (2 ^ (n + 3)) by (rewrite Z.pow_add_r by lia; lia).
      replace (2 ^ (n + 3) - 1) with (Z.ones (n + 3)) by (rewrite Z.ones_equiv; lia).
      apply Z.land_ones. lia. }
    rewrite E, IH by (apply Z.mod_pos_bound; lia).
    f_equal. rewrite Zplus_mod_idemp_l. f_equal. lia.
Qed.

End ProbeFacts.

(** ** Further properties of the code *)

(** X1: [split_lower_upper_words x] cuts any integer [x] into its low 64
    bits [lower] and the rest [upper]: [x = lower + 2^64 * upper] with
    [0 <= lower < 2^64]. *)
Theorem split_lower_upper_words_round_trip (x : Z) :
  let '(lower, upper) := SipHash.split_lower_upper_words x in
  x = lower + 2 ^ 64 * upper /\ 0 <= lower < 2 ^ 64.
Proof.
  pose proof (SipExtra.split_round_trip x) as [E R].
  destruct (SipHash.split_lower_upper_words x) as [lower upper].
  simpl in E, R. split; lia.
Qed.

(** X2: on a 64-bit value and a shift [0 <= s <= 64], [circular_shift]
    is a 64-bit left rotation: the result is a 64-bit value, bit [n]
    moves to bit [(n + s) mod 64], and rotating by [64 - s] gives the
    value back. *)
Theorem circular_shift_rotation (x s : Z) :
  0 <= x < 2 ^ 64 -> 0 <= s <= 64 ->
  0 <= SipHash.circular_shift x s < 2 ^ 64 /\
  (forall n, 0 <= n < 64 ->
     Z.testbit (SipHash.circular_shift x s) ((n + s) mod 64) = Z.testbit x n) /\
  SipHash.circular_shift (SipHash.circular_shift x s) (64 - s) = x.
Proof.
  intros Hx Hs. split; [exact (SipRange.circ_w64 x s Hx Hs) |]. split.
  - intros n Hn.
    pose proof (Z.mod_pos_bound (n + s) 64 ltac:(lia)) as Hm.
    rewrite (SipExtra.circ_bits x s ((n + s) mod 64) Hx Hs) by lia.
    destruct (Z.ltb_spec ((n + s) mod 64) 64) as [_|]; [| lia].
    destruct (Z.ltb_spec (n + s) 64) as [Hlt|Hge].
    + rewrite (Z.mod_small (n + s) 64) by lia.
      destruct (Z.ltb_spec (n + s) s); [lia |]. f_equal. lia.
    + assert (E : (n + s) mod 64 = n + s - 64)
        by (symmetry; apply Z.mod_unique with 1; lia).
      rewrite E. destruct (Z.ltb_spec (n + s - 64) s); [| lia]. f_equal. lia.
  - apply SipExtra.circ_circ; assumption.
Qed.

(** X3: [str2int] packs the characters of a string little-endian, one
    byte each: the result is below [2^(8 * len s)], and byte [i] of it
    is the code of character [i] (and [0] past the end). *)
Theorem str2int_layout (s : string) :
  0 <= SipHash.str2int s < 2 ^ (8 * Z.of_nat (String.length s)) /\
  forall i : nat,
    Z.shiftr (SipHash.str2int s) (8 * Z.of_nat i) mod 256 =
    match String.get i s with Some c => Z.of_nat (nat_of_ascii c) | None => 0 end.
Proof.
  split; [exact (SipExtra.str2int_bound s) |].
  intros i. destruct (String.get i s) as [c|] eqn:Eg.
  - apply SipExtra.str2int_byte. exact Eg.
  - apply StringFacts.get_none_length in Eg.
    pose proof (SipExtra.str2int_bound s) as Hb.
    rewrite Z.shiftr_div_pow2 by lia. rewrite Z.div_small; [reflexivity |].
    split; [lia |]. apply Z.lt_le_trans with (1 := proj2 Hb).
    apply Z.pow_le_mono_r; lia.
Qed.

(** X4: [get_hash] of a string does not see trailing NUL characters, and
    equals [get_hash] of the integer [str2int] makes of the string:
    [s], [s + '\0'] and [str2int(s)] all get the same hash. *)
Theorem get_hash_string_collisions (K : Z) (allow_negative : bool) (s : string) :
  SipHash.get_hash K allow_negative (PStr (s ++ String "000" EmptyString)) =
    SipHash.get_hash K allow_negative (PStr s) /\
  SipHash.get_hash K allow_negative (PStr s) =
    SipHash.get_hash K allow_negative (PInt (SipHash.str2int s)).
Proof.
  unfold SipHash.get_hash, SipHash.message_of.
  rewrite SipExtra.str2int_trailing_nul. split; reflexivity.
Qed.

(** X5: on a 64-bit value [v], [negate] gives the signed reading of its
    two's complement, [v - 2^64]. *)
Theorem negate_two_complement (v : Z) :
  0 <= v < 2 ^ 64 -> SipHash.negate v = v - 2 ^ 64.
Proof. exact (SipExtra.negate_w64 v). Qed.

(** X6: for a 128-bit secret key and a non-negative message,
    [get_hash] returns.  With [allow_negative=True] the hash [h] is a
    64-bit value; with [allow_negative=False] it is [h] read as a signed
    64-bit value ([h - 2^64] when bit 63 is set). *)
Theorem get_hash_range (K : Z) (m : pyobj) :
  0 <= K < 2 ^ 128 -> 0 <= SipHash.message_of m ->
  exists h, SipHash.get_hash K true m = Done h /\ 0 <= h < 2 ^ 64 /\
    SipHash.get_hash K false m = Done (if Z.testbit h 63 then h - 2 ^ 64 else h).
Proof.
  intros HK Hm. unfold SipHash.get_hash. cbv zeta.
  destruct (SipExtra.siphash_main_range K false (SipHash.message_of m) HK Hm)
    as (h & E1 & R & E2).
  exists h. rewrite E1, E2. cbn [negb]. rewrite andb_true_r.
  split; [reflexivity |]. split; [exact R | reflexivity].
Qed.

(** X7: for [hash_compress_bits > 0] and a non-negative hash value,
    [__compress_hash] returns a value of at most [bits] bits, and leaves
    a value that already fits unchanged. *)
Theorem compress_hash_range (bits h : Z) :
  0 < bits -> 0 <= h ->
  exists r, HashTable.compress_hash bits h = Done r /\ 0 <= r < 2 ^ bits /\
    (h < 2 ^ bits -> r = h).
Proof.
  intros Hb Hh. destruct (CompressFacts.compress_hash_bound bits h Hb Hh) as (r & E & R).
  exists r. split; [exact E |]. split; [exact R |].
  intros Hlt. rewrite (CompressFacts.compress_hash_small bits h Hb (conj Hh Hlt)) in E.
  injection E as ->. reflexivity.
Qed.

(** X8: the [while hash_value:] loop of [__compress_hash] never ends on
    a negative hash value (the right shift stays negative), nor on a
    non-zero value when [hash_compress_bits = 0]. *)
Theorem compress_hash_diverges (fuel : nat) (bits h : Z) :
  0 <= bits -> h < 0 \/ (bits = 0 /\ h <> 0) ->
  HashTable.compress_hash_with fuel bits h = Stuck.
Proof.
  intros Hb Hh. unfold HashTable.compress_hash_with.
  destruct (Z.ltb_spec bits 0); [lia |].
  apply CompressFacts.compress_loop_stuck; assumption.
Qed.

(** X9: with [hash_compress_bits > 0], [HashTableEntry.__get_hash] of a
    key with a non-negative message returns a value of at most
    [hash_compress_bits] bits, for every 128-bit secret key. *)
Theorem entry_get_hash_range (bits K : Z) (key : pyobj) :
  0 < bits -> 0 <= K < 2 ^ 128 -> 0 <= SipHash.message_of key ->
  exists r, HashTable.entry_get_hash bits K key = Done r /\ 0 <= r < 2 ^ bits.
Proof.
  intros Hb HK Hm.
  destruct (SipExtra.siphash_main_range K true (SipHash.message_of key) HK Hm)
    as (h & E1 & R & _).
  assert (E : SipHash.get_hash K true key = Done h) by exact E1.
  unfold HashTable.entry_get_hash. rewrite E. unfold mbind, outcome_bind.
  destruct (Z.eqb_spec bits 0) as [|_]; [lia |]. cbn [negb].
  apply CompressFacts.compress_hash_bound; lia.
Qed.

(** X10: every table reached from [HashTable()] by public calls has
    [8 * 2^n] slots for some [n >= 0], exactly [size] of them, and no
    filled slot with the key [None]. *)
Theorem reachable_table_layout (hf : pyobj -> outcome Z) (t : HashTable.table) :
  HashTable.reachable hf t ->
  (exists n, 0 <= n /\ HashTable.size t = 8 * 2 ^ n) /\
  length (HashTable.internal_list t) = Z.to_nat (HashTable.size t) /\
  (forall p, In p (HashTable.items t) -> fst p <> PNone).
Proof.
  intros H. destruct (TableExtra.reachable_layout hf t H) as ((Hs & Hl) & Hk).
  split; [exact Hs |]. split; [exact Hl | exact Hk].
Qed.



(** X13: after [update(k, v)] returns, [k] is not [None], [(k, v)] is
    among [items()], and every pair of [items()] is [(k, v)] or was
    there before: [update], with the resizes it triggers, invents no
    pair. *)
Theorem update_items_spec (hf : pyobj -> outcome Z) (fuel : nat) (t : HashTable.table)
    (k v : pyobj) (t' : HashTable.table) :
  HashTable.update hf fuel t k v = Done t' ->
  k <> PNone /\ In (k, v) (HashTable.items t') /\
  forall p, In p (HashTable.items t') -> p = (k, v) \/ In p (HashTable.items t).
Proof.
  intros H. split; [exact (TableExtra.update_key hf fuel t k v t' H) |].
  exact (TableExtra.update_items hf fuel t k v t' H).
Qed.


(** X15: [get] changes nothing but [collision_counter], which it only
    raises; what it returns is [None] or a value stored under the key. *)
Theorem get_read_only (hf : pyobj -> outcome Z) (fuel : nat) (t : HashTable.table)
    (k r : pyobj) (t' : HashTable.table) :
  HashTable.get hf fuel t k = Done (r, t') ->
  HashTable.internal_list t' = HashTable.internal_list t /\
  HashTable.size t' = HashTable.size t /\ HashTable.used t' = HashTable.used t /\
  HashTable.update_used t' = HashTable.update_used t /\
  HashTable.strategy t' = HashTable.strategy t /\
  HashTable.collision_counter t <= HashTable.collision_counter t' /\
  (r = PNone \/ In (k, r) (HashTable.items t)).
Proof. exact (TableExtra.get_facts hf fuel t k r t'). Qed.

(** X16: [remove(k)] drops at most one pair, and only one whose key is
    [k]: the slot list is unchanged, or [items()] loses one occurrence
    of some [(k, v)].  Size, [used] and the number of slots stay. *)
Theorem remove_drops_one_pair (hf : pyobj -> outcome Z) (fuel : nat) (t : HashTable.table)
    (k : pyobj) (t' : HashTable.table) :
  HashTable.remove hf fuel t k = Done t' ->
  HashTable.size t' = HashTable.size t /\ HashTable.used t' = HashTable.used t /\
  length (HashTable.internal_list t') = length (HashTable.internal_list t) /\
  (HashTable.internal_list t' = HashTable.internal_list t \/
   exists l1 v l2, HashTable.items t = l1 ++ (k, v) :: l2 /\ HashTable.items t' = l1 ++ l2).
Proof.
  intros H. apply TableExtra.remove_facts in H as (E1 & E2 & _ & _ & E5 & _ & E7).
  split; [exact E1 |]. split; [exact E2 |]. split; [exact E5 | exact E7].
Qed.

(** X17: [__simple_linear_probing] in a table of [8 * 2^n] slots: after
    [m] steps from slot [i] the index is [(i + m) mod size] and the hash
    is unchanged, so every slot comes up within [size] steps. *)
Theorem simple_probing_cycle (n i h : Z) :
  0 <= n -> 0 <= i < 8 * 2 ^ n ->
  (forall m, Analysis.probe_iter HashTable.Simple (8 * 2 ^ n) m (i, h) =
               ((i + Z.of_nat m) mod (8 * 2 ^ n), h)) /\
  (forall j, 0 <= j < 8 * 2 ^ n -> exists m, (m < Z.to_nat (8 * 2 ^ n))%nat /\
     fst (Analysis.probe_iter HashTable.Simple (8 * 2 ^ n) m (i, h)) = j).
Proof.
  intros Hn Hi. assert (Hp : 0 < 2 ^ n) by (apply Z.pow_pos_nonneg; lia).
  split; [intros m; exact (ProbeFacts.simple_iter n i h m Hn Hi) |].
  intros j Hj. exists (Z.to_nat ((j - i) mod (8 * 2 ^ n))).
  pose proof (Z.mod_pos_bound (j - i) (8 * 2 ^ n) ltac:(lia)) as Hm.
  split; [lia |].
  rewrite (ProbeFacts.simple_iter n i h _ Hn Hi). simpl fst.
  rewrite Z2Nat.id by lia. rewrite Zplus_mod_idemp_r.
  replace (i + (j - i)) with j by lia. apply Z.mod_small. exact Hj.
Qed.

(** ** Instances of the theorems on concrete calls *)

(** C3 at [update(1, 1)] on a new table, under secret key [0]. *)
Lemma update_load_factor_invariant_witness :
  exists t',
    HashTable.reachable Scenario.hf0 (Scenario.fresh HashTable.Simple) /\
    HashTable.update Scenario.hf0 30 (Scenario.fresh HashTable.Simple) (PInt 1) (PInt 1) = Done t' /\
    0 < HashTable.size t' /\ HashTable.used t' <= HashTable.load_factor * HashTable.size t'.
Proof.
  assert (Hr : HashTable.reachable Scenario.hf0 (Scenario.fresh HashTable.Simple)).
  { exists "simple"%string, (Scenario.fresh HashTable.Simple).
    split; [reflexivity | apply HashTable.reaches_refl]. }
  destruct (HashTable.update Scenario.hf0 30 (Scenario.fresh HashTable.Simple) (PInt 1) (PInt 1))
    as [t'| |] eqn:E; [| vm_compute in E; discriminate E | vm_compute in E; discriminate E].
  exists t'. split; [exact Hr |]. split; [reflexivity |].
  exact (update_load_factor_invariant Scenario.hf0 (Scenario.fresh HashTable.Simple) 30
           (PInt 1) (PInt 1) t' Hr E).
Defined.

(** C5 at [update(1, 1)] on a new table, under secret key [0]. *)
Lemma update_used_increment_witness :
  exists t',
    0 < HashTable.size (Scenario.fresh HashTable.Simple) /\
    0 <= HashTable.used (Scenario.fresh HashTable.Simple) /\
    HashTable.update Scenario.hf0 30 (Scenario.fresh HashTable.Simple) (PInt 1) (PInt 1) = Done t' /\
    exists f t1 index c e,
      (30 = S f)%nat /\
      HashTable.maybe_resize (HashTable.update Scenario.hf0 f) (Scenario.fresh HashTable.Simple)
        = Done t1 /\
      HashTable.used t1 = HashTable.used (Scenario.fresh HashTable.Simple) /\
      HashTable.update_used t1 = HashTable.update_used (Scenario.fresh HashTable.Simple) /\
      HashTable.lookup_key Scenario.hf0 f t1 (PInt 1) false = Done (index, c) /\
      HashTable.internal_list t1 !! Z.to_nat index = Some e /\
      HashTable.used t' =
        (if negb (HashTable.is_dummy e) && HashTable.update_used (Scenario.fresh HashTable.Simple)
         then HashTable.used (Scenario.fresh HashTable.Simple) + 1
         else HashTable.used (Scenario.fresh HashTable.Simple)) /\
      (HashTable.is_filled e = true ->
       HashTable.update_used (Scenario.fresh HashTable.Simple) = true ->
       HashTable.used t' = HashTable.used (Scenario.fresh HashTable.Simple) + 1).
Proof.
  destruct (HashTable.update Scenario.hf0 30 (Scenario.fresh HashTable.Simple) (PInt 1) (PInt 1))
    as [t'| |] eqn:E; [| vm_compute in E; discriminate E | vm_compute in E; discriminate E].
  exists t'. split; [reflexivity |]. split; [discriminate |]. split; [reflexivity |].
  apply (update_used_increment Scenario.hf0 30 (Scenario.fresh HashTable.Simple) (PInt 1) (PInt 1)
           t'); [reflexivity | discriminate | left; split; [reflexivity | discriminate] | exact E].
Defined.

(** C8 at the message [1]. *)
Lemma add_size_byte_layout_witness :
  0 <= 1 /\
  let bits := if 1 =? 0 then 1 else Z.log2 1 + 1 in
  let L' := (bits + 7) / 8 in
  let W := (L' + 8) / 8 in
  SipHash.add_size_byte 1 = Z.lor 1 (Z.shiftl (L' mod 256) (64 * W - 8)) /\
  1 < 2 ^ (8 * L') /\ 8 * L' <= 64 * W - 8 /\
  Z.land 1 (Z.shiftl (L' mod 256) (64 * W - 8)) = 0.
Proof. split; [lia | apply (add_size_byte_layout 1); lia]. Defined.

(** C7 at the integer [-1]: the hash never returns, whatever the fuel. *)
Lemma get_hash_negative_int_diverges_witness :
  -1 < 0 /\ SipHash.get_hash_with 1000 0 false (PInt (-1)) = Stuck.
Proof. split; [lia | apply (get_hash_negative_int_diverges 1000 0 false (-1)); lia]. Defined.

(** C10 at [update(1, None)] on a new table, under secret key [0]. *)
Lemma get_none_ambiguous_witness :
  exists t',
    HashTable.update Scenario.hf0 30 (Scenario.fresh HashTable.Simple) (PInt 1) PNone = Done t' /\
    (exists f t'', HashTable.get Scenario.hf0 f t' (PInt 1) = Done (PNone, t'')) /\
    (forall f key' r t'', ~ In key' (map fst (HashTable.items t')) ->
       HashTable.get Scenario.hf0 f t' key' = Done (r, t'') -> r = PNone).
Proof.
  destruct (HashTable.update Scenario.hf0 30 (Scenario.fresh HashTable.Simple) (PInt 1) PNone)
    as [t'| |] eqn:E; [| vm_compute in E; discriminate E | vm_compute in E; discriminate E].
  exists t'. split; [reflexivity |].
  exact (get_none_ambiguous Scenario.hf0 30 (Scenario.fresh HashTable.Simple) (PInt 1) t' E).
Defined.

(** C6 with secret key [0], [collision_resolution='simple'] and fuel 40. *)
Lemma squares_scenario_witness :
  0 <= 0 < 2 ^ 128 /\
  HashTable.init "simple"%string = Done (Scenario.fresh HashTable.Simple) /\
  (40 <= 40)%nat /\
  (forall n, (n < 8)%nat -> exists tn,
      HashTable.run_ops (HashTable.entry_hash 0) 40 (Scenario.fresh HashTable.Simple)
        (Scenario.square_ops n) = Done tn /\
      HashTable.size tn = 8 /\ HashTable.used tn = Z.of_nat n /\
      HashTable.resize_needed tn = false) /\
  exists t8 tr t9,
    HashTable.run_ops (HashTable.entry_hash 0) 40 (Scenario.fresh HashTable.Simple)
      (Scenario.square_ops 8) = Done t8 /\
    HashTable.size t8 = 8 /\ HashTable.used t8 = 8 /\
    HashTable.resize_needed t8 = true /\
    HashTable.maybe_resize (HashTable.update (HashTable.entry_hash 0) (pred 40)) t8 = Done tr /\
    HashTable.size tr = 16 /\
    HashTable.place (HashTable.entry_hash 0) (pred 40) tr (PInt 8) (PInt 64) = Done t9 /\
    HashTable.update (HashTable.entry_hash 0) 40 t8 (PInt 8) (PInt 64) = Done t9 /\
    HashTable.run_ops (HashTable.entry_hash 0) 40 (Scenario.fresh HashTable.Simple)
      (Scenario.square_ops 9) = Done t9 /\
    HashTable.size t9 = 16 /\
    HashTable.items t9 ≡ₚ Scenario.square_items 9.
Proof.
  split; [lia |]. split; [reflexivity |]. split; [lia |].
  apply (squares_scenario 0 "simple"%string (Scenario.fresh HashTable.Simple) 40);
    [lia | reflexivity | lia].
Defined.

(** X2 at [x = 1], [s = 13]. *)
Lemma circular_shift_rotation_witness :
  0 <= 1 < 2 ^ 64 /\ 0 <= 13 <= 64 /\
  0 <= SipHash.circular_shift 1 13 < 2 ^ 64 /\
  (forall n, 0 <= n < 64 ->
     Z.testbit (SipHash.circular_shift 1 13) ((n + 13) mod 64) = Z.testbit 1 n) /\
  SipHash.circular_shift (SipHash.circular_shift 1 13) (64 - 13) = 1.
Proof.
  split; [lia |]. split; [lia |].
  exact (circular_shift_rotation 1 13 ltac:(lia) ltac:(lia)).
Defined.

(** X5 at [v = 2^63]. *)
Lemma negate_two_complement_witness :
  0 <= 2 ^ 63 < 2 ^ 64 /\ SipHash.negate (2 ^ 63) = 2 ^ 63 - 2 ^ 64.
Proof.
  split; [lia |]. exact (negate_two_complement (2 ^ 63) ltac:(lia)).
Defined.

(** X6 at secret key [0] and the string ['hello']. *)
Lemma get_hash_range_witness :
  0 <= 0 < 2 ^ 128 /\ 0 <= SipHash.message_of (PStr "hello") /\
  exists h, SipHash.get_hash 0 true (PStr "hello") = Done h /\ 0 <= h < 2 ^ 64 /\
    SipHash.get_hash 0 false (PStr "hello") = Done (if Z.testbit h 63 then h - 2 ^ 64 else h).
Proof.
  assert (Hm : 0 <= SipHash.message_of (PStr "hello")) by (vm_compute; intros Hc; discriminate Hc).
  split; [lia |]. split; [exact Hm |].
  exact (get_hash_range 0 (PStr "hello") ltac:(lia) Hm).
Defined.

(** X7 at [hash_compress_bits = 8] and the hash [2^64 - 1]. *)
Lemma compress_hash_range_witness :
  0 < 8 /\ 0 <= 2 ^ 64 - 1 /\
  exists r, HashTable.compress_hash 8 (2 ^ 64 - 1) = Done r /\ 0 <= r < 2 ^ 8 /\
    (2 ^ 64 - 1 < 2 ^ 8 -> r = 2 ^ 64 - 1).
Proof.
  split; [lia |]. split; [lia |].
  exact (compress_hash_range 8 (2 ^ 64 - 1) ltac:(lia) ltac:(lia)).
Defined.

(** X8 at [hash_compress_bits = 8] and the hash [-1]. *)
Lemma compress_hash_diverges_witness :
  0 <= 8 /\ (-1 < 0 \/ (8 = 0 /\ -1 <> 0)) /\ HashTable.compress_hash_with 1000 8 (-1) = Stuck.
Proof.
  assert (Hh : -1 < 0 \/ (8 = 0 /\ -1 <> 0)) by lia.
  split; [lia |]. split; [exact Hh |].
  exact (compress_hash_diverges 1000 8 (-1) ltac:(lia) Hh).
Defined.

(** X9 at [hash_compress_bits = 8], secret key [0] and the key [1]. *)
Lemma entry_get_hash_range_witness :
  0 < 8 /\ 0 <= 0 < 2 ^ 128 /\ 0 <= SipHash.message_of (PInt 1) /\
  exists r, HashTable.entry_get_hash 8 0 (PInt 1) = Done r /\ 0 <= r < 2 ^ 8.
Proof.
  assert (Hm : 0 <= SipHash.message_of (PInt 1)) by (vm_compute; intros Hc; discriminate Hc).
  split; [lia |]. split; [lia |]. split; [exact Hm |].
  exact (entry_get_hash_range 8 0 (PInt 1) ltac:(lia) ltac:(lia) Hm).
Defined.

(** X10 on the table after [update(1, 1)] on a new table, under secret
    key [0]. *)
Lemma reachable_table_layout_witness :
  exists t',
    HashTable.reachable Scenario.hf0 t' /\
    (exists n, 0 <= n /\ HashTable.size t' = 8 * 2 ^ n) /\
    length (HashTable.internal_list t') = Z.to_nat (HashTable.size t') /\
    (forall p, In p (HashTable.items t') -> fst p <> PNone).
Proof.
  destruct (HashTable.run_op Scenario.hf0 30 (Scenario.fresh HashTable.Simple)
              (HashTable.OpUpdate (PInt 1) (PInt 1))) as [t'| |] eqn:E;
    [| vm_compute in E; discriminate E | vm_compute in E; discriminate E].
  assert (Hr : HashTable.reachable Scenario.hf0 t').
  { exists "simple"%string, (Scenario.fresh HashTable.Simple).
    split; [reflexivity |]. eapply HashTable.reaches_step; [exact E | apply HashTable.reaches_refl]. }
  exists t'. split; [exact Hr |]. exact (reachable_table_layout Scenario.hf0 t' Hr).
Defined.



(** X13 at [update(1, 1)] on a new table, under secret key [0]. *)
Lemma update_items_spec_witness :
  exists t',
    HashTable.update Scenario.hf0 30 (Scenario.fresh HashTable.Simple) (PInt 1) (PInt 1) = Done t' /\
    PInt 1 <> PNone /\ In (PInt 1, PInt 1) (HashTable.items t') /\
    forall p, In p (HashTable.items t') ->
      p = (PInt 1, PInt 1) \/ In p (HashTable.items (Scenario.fresh HashTable.Simple)).
Proof.
  destruct (HashTable.update Scenario.hf0 30 (Scenario.fresh HashTable.Simple) (PInt 1) (PInt 1))
    as [t'| |] eqn:E; [| vm_compute in E; discriminate E | vm_compute in E; discriminate E].
  exists t'. split; [reflexivity |].
  exact (update_items_spec Scenario.hf0 30 _ (PInt 1) (PInt 1) t' E).
Defined.


(** X15 at [get(1)] after [update(1, 7)] on a new table, under secret
    key [0]. *)
Lemma get_read_only_witness :
  exists t1 r t2,
    HashTable.update Scenario.hf0 30 (Scenario.fresh HashTable.Simple) (PInt 1) (PInt 7) = Done t1 /\
    HashTable.get Scenario.hf0 30 t1 (PInt 1) = Done (r, t2) /\
    HashTable.internal_list t2 = HashTable.internal_list t1 /\
    HashTable.size t2 = HashTable.size t1 /\ HashTable.used t2 = HashTable.used t1 /\
    HashTable.update_used t2 = HashTable.update_used t1 /\
    HashTable.strategy t2 = HashTable.strategy t1 /\
    HashTable.collision_counter t1 <= HashTable.collision_counter t2 /\
    (r = PNone \/ In (PInt 1, r) (HashTable.items t1)).
Proof.
  destruct (HashTable.update Scenario.hf0 30 (Scenario.fresh HashTable.Simple) (PInt 1) (PInt 7))
    as [t1| |] eqn:E1; [| vm_compute in E1; discriminate E1 | vm_compute in E1; discriminate E1].
  exists t1. pose proof E1 as E1'. vm_compute in E1'. injection E1' as <-.
  destruct (HashTable.get Scenario.hf0 30 _ (PInt 1)) as [[r t2]| |] eqn:E2;
    [| vm_compute in E2; discriminate E2 | vm_compute in E2; discriminate E2].
  exists r, t2. split; [exact E1 |]. split; [reflexivity |].
  exact (get_read_only Scenario.hf0 30 _ (PInt 1) r t2 E2).
Defined.

(** X16 at [remove(1)] after [update(1, 7)] on a new table, under
    secret key [0]. *)
Lemma remove_drops_one_pair_witness :
  exists t1 t2,
    HashTable.update Scenario.hf0 30 (Scenario.fresh HashTable.Simple) (PInt 1) (PInt 7) = Done t1 /\
    HashTable.remove Scenario.hf0 30 t1 (PInt 1) = Done t2 /\
    HashTable.size t2 = HashTable.size t1 /\ HashTable.used t2 = HashTable.used t1 /\
    length (HashTable.internal_list t2) = length (HashTable.internal_list t1) /\
    (HashTable.internal_list t2 = HashTable.internal_list t1 \/
     exists l1 v l2, HashTable.items t1 = l1 ++ (PInt 1, v) :: l2 /\ HashTable.items t2 = l1 ++ l2).
Proof.
  destruct (HashTable.update Scenario.hf0 30 (Scenario.fresh HashTable.Simple) (PInt 1) (PInt 7))
    as [t1| |] eqn:E1; [| vm_compute in E1; discriminate E1 | vm_compute in E1; discriminate E1].
  exists t1. pose proof E1 as E1'. vm_compute in E1'. injection E1' as <-.
  destruct (HashTable.remove Scenario.hf0 30 _ (PInt 1)) as [t2| |] eqn:E2;
    [| vm_compute in E2; discriminate E2 | vm_compute in E2; discriminate E2].
  exists t2. split; [exact E1 |]. split; [reflexivity |].
  exact (remove_drops_one_pair Scenario.hf0 30 _ (PInt 1) t2 E2).
Defined.

(** X17 in a table of [8] slots, from slot [3]. *)
Lemma simple_probing_cycle_witness :
  0 <= 0 /\ 0 <= 3 < 8 * 2 ^ 0 /\
  (forall m, Analysis.probe_iter HashTable.Simple (8 * 2 ^ 0) m (3, 0) =
               ((3 + Z.of_nat m) mod (8 * 2 ^ 0), 0)) /\
  (forall j, 0 <= j < 8 * 2 ^ 0 -> exists m, (m < Z.to_nat (8 * 2 ^ 0))%nat /\
     fst (Analysis.probe_iter HashTable.Simple (8 * 2 ^ 0) m (3, 0)) = j).
Proof.
  split; [lia |]. split; [lia |].
  exact (simple_probing_cycle 0 3 0 ltac:(lia) ltac:(lia)).
Defined.
